(** * RescueBot.AI: a shallow embedding of the simulation/control core

    The development follows the TypeScript sources: [types.ts] and
    [constants.ts] (data model), [services/navigation.ts] (A* planner and
    control step), [services/perception.ts] (sensor scan),
    [services/telemetry.ts] (metrics), [services/geminiService.ts] (decision
    orchestrator) and the simulation parts of [App.tsx].

    Numbers.  Grid coordinates, counters and movement costs are integers and
    are modelled by [Z].  Battery levels, multipliers and money amounts are
    JavaScript numbers with fractional values; they are modelled by exact
    rationals [Q], the real numbers the doubles of the program stand for.
    Rounding to the nearest double is monotone, so a conclusion of the form
    "does not decrease" or "is never below zero" proved over [Q] carries
    over to the doubles.  Strict comparisons and thresholds do not in
    general; below they are concluded only between values that are exact as
    doubles.  An equation between a result and an arithmetic expression
    says that the program evaluates that expression; on the doubles each of
    its operations rounds.  Where the doubles themselves matter (the
    exploration percentage, and two multipliers one unit in the last place
    apart), the computation is done on IEEE-754 binary64 numbers, Rocq's
    primitive [float]. *)

From Stdlib Require Import ZArith QArith Qminmax Qround Lqa Lia String List Sorted.
From Stdlib Require Import DecimalString.
From Stdlib Require Import Floats.
From stdpp Require Import gmap strings list fin_maps relations.
From Equations Require Import Equations.

Open Scope Z_scope.

(* ===================================================================== *)
(** * types.ts *)
(* ===================================================================== *)

Module CellType.
Inductive t := EMPTY | WALL | DEBRIS | FIRE | VICTIM | START.

Definition eqb (a b : t) : bool :=
  match a, b with
  | EMPTY, EMPTY | WALL, WALL | DEBRIS, DEBRIS
  | FIRE, FIRE | VICTIM, VICTIM | START, START => true
  | _, _ => false
  end.
End CellType.

Module RobotStatus.
Inductive t :=
  IDLE | SCANNING | PLANNING | MOVING | ACTING | CRITICAL | EMERGENCY_STOP | RECHARGING.

Definition eqb (a b : t) : bool :=
  match a, b with
  | IDLE, IDLE | SCANNING, SCANNING | PLANNING, PLANNING | MOVING, MOVING
  | ACTING, ACTING | CRITICAL, CRITICAL | EMERGENCY_STOP, EMERGENCY_STOP
  | RECHARGING, RECHARGING => true
  | _, _ => false
  end.
End RobotStatus.

Module SystemModule.
Inductive t :=
  SIMULATION | PERCEPTION | INTELLIGENCE | PLANNING | CONTROL | TELEMETRY | SAFETY.
End SystemModule.

Inductive LogType := INFO | WARNING | ERROR | SUCCESS.

Inductive Action := MOVE | RESCUE | EXTINGUISH | EXPLORE | RECHARGE.

Inductive Priority := HIGH | MEDIUM | LOW.

Record Coordinates := mkCoordinates { x : Z; y : Z }.

Record Cell := mkCell {
  cell_x : Z;
  cell_y : Z;
  type : CellType.t;
  revealed : bool;
  difficulty : Z;
  victimPriority : option Priority
}.

(** [{ ...c, type: t }] and [{ ...c, revealed: b }]. *)
Definition withType (t : CellType.t) (c : Cell) : Cell :=
  {| cell_x := cell_x c; cell_y := cell_y c; type := t; revealed := revealed c;
     difficulty := difficulty c; victimPriority := victimPriority c |}.

Definition withRevealed (b : bool) (c : Cell) : Cell :=
  {| cell_x := cell_x c; cell_y := cell_y c; type := type c; revealed := b;
     difficulty := difficulty c; victimPriority := victimPriority c |}.

(** [LogEntry] without its [id] (a fresh uuid) and [timestamp] (the wall
    clock); no property below reads them. *)
Record LogEntry := mkLogEntry {
  log_message : string;
  log_source : SystemModule.t;
  log_type : LogType
}.

Record RobotState := mkRobotState {
  pos : Coordinates;
  battery : Q;
  health : Q;
  status : RobotStatus.t;
  victimsRescued : Z;
  firesExtinguished : Z;
  path : list Coordinates;
  currentGoal : option Coordinates;
  logs : list LogEntry
}.

Record HistoryPoint (A : Type) := mkPoint { point_step : Z; point_value : A }.
Arguments mkPoint {A} _ _.
Arguments point_step {A} _.
Arguments point_value {A} _.

Record SimulationMetrics := mkMetrics {
  stepsTaken : Z;
  batteryHistory : list (HistoryPoint Q);
  explorationRate : list (HistoryPoint float);
  operationalCost : Q;
  valueGenerated : Q
}.

Record DecisionResponse := mkDecision {
  reasoning : string;
  action : Action;
  targetCoordinates : option Coordinates;
  priority : Priority
}.

Record SensorReading := mkReading {
  coordinates : Coordinates;
  reading_type : CellType.t;
  distance : Z
}.

Record ScenarioConfig := mkScenario {
  scenario_id : string;
  scenario_name : string;
  scenario_description : string;
  obstacleDensity : Q;
  victimCount : Z;
  fireCount : Z
}.

Record RobotConfig := mkRobotConfig {
  robot_id : string;
  robot_name : string;
  robot_description : string;
  speedMultiplier : Q;
  batteryDrainRate : Q;
  maxHealth : Q
}.

(** Decidable equality on the enumerations and on coordinates. *)
#[export] Instance CellType_eq_dec : EqDecision CellType.t.
Proof. solve_decision. Defined.

#[export] Instance RobotStatus_eq_dec : EqDecision RobotStatus.t.
Proof. solve_decision. Defined.

#[export] Instance Coordinates_eq_dec : EqDecision Coordinates.
Proof. solve_decision. Defined.

(* ===================================================================== *)
(** * constants.ts *)
(* ===================================================================== *)

Definition GRID_SIZE : Z := 15.
Definition MAX_BATTERY : Q := 100.
Definition MAX_HEALTH : Q := 100.
Definition CHARGING_RATE : Q := 10.

Definition MOVEMENT_COST (t : CellType.t) : Z :=
  match t with
  | CellType.EMPTY => 1
  | CellType.START => 1
  | CellType.DEBRIS => 3
  | CellType.WALL => 999
  | CellType.FIRE => 5
  | CellType.VICTIM => 1
  end.

Definition COST_PER_STEP : Q := 0.50.
Definition COST_PER_BATTERY_PERCENT : Q := 5.00.
Definition VALUE_PER_RESCUE : Q := 5000.00.
Definition VALUE_PER_HAZARD_CLEARED : Q := 1500.00.

(** JavaScript's [a || d] on numbers: [d] replaces a falsy [a] (zero). *)
Definition or_default_Z (a d : Z) : Z := if a =? 0 then d else a.
Definition or_default_Q (a d : Q) : Q := if Qeq_bool a 0 then d else a.

(** A string is truthy unless it is empty. *)
Definition truthy (s : string) : bool :=
  match s with
  | EmptyString => false
  | String _ _ => true
  end.

(** [Math.max] and [Math.min] on rationals. *)
Definition Math_max (a b : Q) : Q := Qmax a b.
Definition Math_min (a b : Q) : Q := Qmin a b.

(** An integer as the double that holds it (the nearest one, for an integer
    of more than 53 bits). *)
Definition double_of_Z (z : Z) : float :=
  SF2Prim (binary_normalize prec emax z 0 false).


(* ===================================================================== *)
(** * services/navigation.ts: the control step *)
(* ===================================================================== *)

Record ControlResult := mkControlResult {
  success : bool;
  newBattery : Q;
  message : option string
}.

(** The drain of one ordinary move, [0.5 * cost * speedMultiplier *
    batteryDrainRate], with the fallbacks of the source: a missing profile
    or a falsy field counts as 1.0, a falsy cost as 1. *)
Definition stepDrain (cellType : CellType.t) (robotConfig : option RobotConfig) : Q :=
  let cost := or_default_Z (MOVEMENT_COST cellType) 1 in
  let speed :=
    match robotConfig with
    | Some c => or_default_Q (speedMultiplier c) 1.0
    | None => 1.0%Q
    end in
  let rate :=
    match robotConfig with
    | Some c => or_default_Q (batteryDrainRate c) 1.0
    | None => 1.0%Q
    end in
  (0.5 * inject_Z cost * speed * rate)%Q.


Definition executeControlStep
    (currentPos nextPos : Coordinates) (currentBattery : Q)
    (cellType : CellType.t) (robotConfig : option RobotConfig) : ControlResult :=
  if CellType.eqb cellType CellType.WALL then
    {| success := false; newBattery := currentBattery;
       message := Some "COLLISION DETECTED"%string |}
  else
    let drain := stepDrain cellType robotConfig in
    let newBattery := Math_max 0 (currentBattery - drain)%Q in
    {| success := true; newBattery := newBattery; message := None |}.

(* ===================================================================== *)
(** * services/telemetry.ts *)
(* ===================================================================== *)

Definition createLog (source : SystemModule.t) (msg : string) (ty : LogType) : LogEntry :=
  {| log_message := msg; log_source := source; log_type := ty |}.

(** [Math.round] on doubles: the nearest integer, a half going up.  [NaN],
    the infinities and the zeros are returned as they are, and so is a
    double with no fractional bits ([0 <= e]); for [m * 2^e] with [e < 0]
    the result is [floor ((2 m + 2^-e) / 2^(1-e))], and a result of zero
    keeps the sign of the argument. *)
Definition Math_round (d : float) : float :=
  match Prim2SF d with
  | S754_finite s m e =>
      if 0 <=? e then d
      else
        let n := (2 * (if s then Z.neg m else Z.pos m) + 2 ^ (- e)) / 2 ^ (1 - e) in
        if n =? 0 then (if s then neg_zero else zero) else double_of_Z n
  | _ => d
  end.

(** [Math.round((exploredCount / totalCells) * 100)], on doubles: the
    division and the product round, and a zero [totalCells] gives
    [Infinity] or [NaN]. *)
Definition explorationPercent (exploredCount totalCells : Z) : float :=
  Math_round (double_of_Z exploredCount / double_of_Z totalCells * 100)%float.

(** [updateMetrics].  The costs are computed on the exact values; the
    scheduler always passes [GRID_SIZE * GRID_SIZE] for [totalCells]. *)
Definition updateMetrics (currentMetrics : SimulationMetrics)
    (batteryLevel : Q) (exploredCount totalCells : Z)
    (victimsRescued firesExtinguished : Z) : SimulationMetrics :=
  let step := stepsTaken currentMetrics + 1 in
  let batteryUsed := (MAX_BATTERY - batteryLevel)%Q in
  let operationalCost :=
    (inject_Z step * COST_PER_STEP + batteryUsed * COST_PER_BATTERY_PERCENT)%Q in
  let valueGenerated :=
    (inject_Z victimsRescued * VALUE_PER_RESCUE
     + inject_Z firesExtinguished * VALUE_PER_HAZARD_CLEARED)%Q in
  {| stepsTaken := step;
     batteryHistory :=
       batteryHistory currentMetrics ++ [mkPoint step batteryLevel];
     explorationRate :=
       explorationRate currentMetrics
       ++ [mkPoint step (explorationPercent exploredCount totalCells)];
     operationalCost := operationalCost;
     valueGenerated := valueGenerated |}.

(** The metrics a mission starts from ([initSimulation] in App.tsx). *)
Definition initialMetrics : SimulationMetrics :=
  {| stepsTaken := 0;
     batteryHistory := [mkPoint 0 100%Q];
     explorationRate := [mkPoint 0 0%float];
     operationalCost := 0;
     valueGenerated := 0 |}.

(** One telemetry update per tick: the arguments the scheduler passes. *)
Record MetricsInput := mkMetricsInput {
  in_batteryLevel : Q;
  in_exploredCount : Z;
  in_totalCells : Z;
  in_victimsRescued : Z;
  in_firesExtinguished : Z
}.

(** The successive results of [setMetrics (prev => updateMetrics prev ...)]. *)
Fixpoint runUpdates (m : SimulationMetrics) (inputs : list MetricsInput)
  : list SimulationMetrics :=
  match inputs with
  | [] => []
  | i :: rest =>
      let m' := updateMetrics m (in_batteryLevel i) (in_exploredCount i)
                  (in_totalCells i) (in_victimsRescued i) (in_firesExtinguished i) in
      m' :: runUpdates m' rest
  end.

(* ===================================================================== *)
(** * services/navigation.ts: the A* planner *)
(* ===================================================================== *)

(** What a call evaluates to: a value, a JavaScript [TypeError] (an index
    outside an array followed by a property access), or a loop of the model
    that ran out of fuel. *)
Inductive result (A : Type) :=
  | Ok (a : A)
  | TypeError
  | OutOfFuel.
Arguments Ok {A} _.
Arguments TypeError {A}.
Arguments OutOfFuel {A}.

(** [grid[cy][cx]]. *)
Definition cellAt (grid : list (list Cell)) (cx cy : Z) : option Cell :=
  if (cx <? 0) || (cy <? 0) then None
  else
    match grid !! Z.to_nat cy with
    | Some row => row !! Z.to_nat cx
    | None => None
    end.

#[warnings="-register-all"]
Inductive Node := mkNode {
  node_x : Z;
  node_y : Z;
  node_g : Z;
  node_h : Z;
  node_f : Z;
  node_parent : option Node
}.

(** [openList.sort((a, b) => a.f - b.f)]: a stable sort on [f]. *)
Fixpoint insertByF (n : Node) (l : list Node) : list Node :=
  match l with
  | [] => [n]
  | m :: l' => if node_f n <=? node_f m then n :: l else m :: insertByF n l'
  end.

Definition sortByF (l : list Node) : list Node := foldr insertByF [] l.

(** The coordinates from a node back to the root of its parent chain. *)
Fixpoint chain (n : Node) : list Coordinates :=
  mkCoordinates (node_x n) (node_y n) ::
  match node_parent n with
  | Some p => chain p
  | None => []
  end.

Definition neighbors : list Coordinates :=
  [ mkCoordinates 0 (-1); mkCoordinates 0 1; mkCoordinates (-1) 0; mkCoordinates 1 0 ].

(** The closed list holds the keys [`${x},${y}`]; the model keeps the pair. *)
Definition key (cx cy : Z) : Z * Z := (cx, cy).

(** One pass of the body of [for (const offset of neighbors)]; [None] is a
    [TypeError]. *)
Definition visitNeighbor (target : Coordinates) (worldModel : list (list Cell))
    (closedList : gset (Z * Z)) (currentNode : Node)
    (openList : list Node) (offset : Coordinates) : option (list Node) :=
  let nx := node_x currentNode + x offset in
  let ny := node_y currentNode + y offset in
  if (nx <? 0) || (nx >=? GRID_SIZE) || (ny <? 0) || (ny >=? GRID_SIZE) then Some openList
  else if bool_decide (key nx ny ∈ closedList) then Some openList
  else
    match cellAt worldModel nx ny with
    | None => None
    | Some cell =>
        if CellType.eqb (type cell) CellType.WALL && revealed cell then Some openList
        else
          let gCost := node_g currentNode + or_default_Z (MOVEMENT_COST (type cell)) 1 in
          let hCost := Z.abs (nx - x target) + Z.abs (ny - y target) in
          let fCost := gCost + hCost in
          let existingNode :=
            find (fun n => (node_x n =? nx) && (node_y n =? ny)) openList in
          if match existingNode with
             | Some e => gCost >=? node_g e
             | None => false
             end
          then Some openList
          else
            let neighborNode :=
              {| node_x := nx; node_y := ny; node_g := gCost; node_h := hCost;
                 node_f := fCost; node_parent := Some currentNode |} in
            match existingNode with
            | None => Some (openList ++ [neighborNode])
            | Some _ => Some openList
            end
    end.

Fixpoint visitNeighbors (target : Coordinates) (worldModel : list (list Cell))
    (closedList : gset (Z * Z)) (currentNode : Node)
    (openList : list Node) (offsets : list Coordinates) : option (list Node) :=
  match offsets with
  | [] => Some openList
  | offset :: rest =>
      match visitNeighbor target worldModel closedList currentNode openList offset with
      | Some openList' =>
          visitNeighbors target worldModel closedList currentNode openList' rest
      | None => None
      end
  end.

(** The [while (openList.length > 0)] loop; sorting keeps the length, so
    the loop ends when the sorted list is empty. *)
Fixpoint planLoop (fuel : nat) (target : Coordinates) (worldModel : list (list Cell))
    (openList : list Node) (closedList : gset (Z * Z)) : result (list Coordinates) :=
  match fuel with
  | O => OutOfFuel
  | S fuel' =>
      match sortByF openList with
      | [] => Ok []
      | currentNode :: openList' =>
          if (node_x currentNode =? x target) && (node_y currentNode =? y target)
          then Ok (tail (rev (chain currentNode)))
          else
            let closedList' := {[ key (node_x currentNode) (node_y currentNode) ]} ∪ closedList in
            match visitNeighbors target worldModel closedList' currentNode openList' neighbors with
            | Some openList'' => planLoop fuel' target worldModel openList'' closedList'
            | None => TypeError
            end
      end
  end.

(** Every pass but the last closes one more position, a cell of the grid or
    the start, so [GRID_SIZE * GRID_SIZE + 2] passes are enough (see
    [planLoop_correct] below). *)
Definition planFuel : nat := Z.to_nat (GRID_SIZE * GRID_SIZE + 2).

Definition planPath (start target : Coordinates) (worldModel : list (list Cell))
  : result (list Coordinates) :=
  let startNode :=
    {| node_x := x start; node_y := y start; node_g := 0; node_h := 0;
       node_f := 0; node_parent := None |} in
  planLoop planFuel target worldModel [startNode] ∅.

(* ===================================================================== *)
(** * services/perception.ts *)
(* ===================================================================== *)

(** [scanEnvironment] copies the grid and writes to the copy, and it may
    return the very array it was given.  Whether the caller's grid is
    touched is a question about object identity, so the grid lives in a
    store: an array is an object holding the addresses of its elements, a
    cell is an object holding its fields. *)
Module Perception.

Definition loc := positive.

Inductive object :=
  | ObjCell (c : Cell)
  | ObjArray (elems : list loc).

Abbreviation heap := (gmap loc object).

(** Computations on the store that may throw. *)
Definition M (A : Type) : Type := heap -> option (A * heap).

Definition ret {A} (a : A) : M A := fun hp => Some (a, hp).

Definition bind {A B} (m : M A) (k : A -> M B) : M B :=
  fun hp =>
    match m hp with
    | Some (a, hp') => k a hp'
    | None => None
    end.

Definition throw {A} : M A := fun _ => None.

Notation "'let!' v ':=' m 'in' k" := (bind m (fun v => k))
  (at level 10, v name, m at level 100, k at level 200, only parsing).

(** A new object gets an address the store does not use. *)
Definition alloc (o : object) : M loc :=
  fun hp => let l := fresh (dom hp) in Some (l, <[l := o]> hp).

Definition readCell (l : loc) : M Cell :=
  fun hp =>
    match hp !! l with
    | Some (ObjCell c) => Some (c, hp)
    | _ => None
    end.

Definition readArray (l : loc) : M (list loc) :=
  fun hp =>
    match hp !! l with
    | Some (ObjArray elems) => Some (elems, hp)
    | _ => None
    end.

(** [a[i]] followed by a property access: an index outside the array
    throws. *)
Definition index (a : loc) (i : Z) : M loc :=
  let! elems := readArray a in
  match (if i <? 0 then None else elems !! Z.to_nat i) with
  | Some l => ret l
  | None => throw
  end.

(** [cell.revealed = b]. *)
Definition writeRevealed (l : loc) (b : bool) : M unit :=
  fun hp =>
    match hp !! l with
    | Some (ObjCell c) => Some (tt, <[l := ObjCell (withRevealed b c)]> hp)
    | _ => None
    end.

(** [row.map(cell => ({ ...cell }))]. *)
Fixpoint copyCells (cells : list loc) : M (list loc) :=
  match cells with
  | [] => ret []
  | l :: rest =>
      let! c := readCell l in
      let! l' := alloc (ObjCell c) in
      let! rest' := copyCells rest in
      ret (l' :: rest')
  end.

(** [truthGrid.map(row => row.map(...))], before the outer array is made. *)
Fixpoint copyRows (rows : list loc) : M (list loc) :=
  match rows with
  | [] => ret []
  | r :: rest =>
      let! cells := readArray r in
      let! cells' := copyCells cells in
      let! r' := alloc (ObjArray cells') in
      let! rest' := copyRows rest in
      ret (r' :: rest')
  end.

Definition copyGrid (grid : loc) : M loc :=
  let! rows := readArray grid in
  let! rows' := copyRows rows in
  alloc (ObjArray rows').

Definition SENSOR_RADIUS : Z := 2.

Record ScanState := mkScanState {
  readings : list SensorReading;
  mapUpdated : bool
}.

(** The body of the inner [for] loop at offset [(dx, dy)]. *)
Definition scanCell (truthGrid newMapState : loc) (robotPos : Coordinates)
    (dy dx : Z) (st : ScanState) : M ScanState :=
  let nx := x robotPos + dx in
  let ny := y robotPos + dy in
  if (nx >=? 0) && (nx <? GRID_SIZE) && (ny >=? 0) && (ny <? GRID_SIZE) then
    let! row := index truthGrid ny in
    let! cl := index row nx in
    let! cell := readCell cl in
    let readings' :=
      readings st ++
      [ {| coordinates := mkCoordinates nx ny;
           reading_type := type cell;
           distance := Z.abs dx + Z.abs dy |} ] in
    let! row' := index newMapState ny in
    let! cl' := index row' nx in
    let! cell' := readCell cl' in
    if negb (revealed cell') then
      let! _ := writeRevealed cl' true in
      ret {| readings := readings'; mapUpdated := true |}
    else
      ret {| readings := readings'; mapUpdated := mapUpdated st |}
  else ret st.

(** A [for] loop over the given values of its counter. *)
Fixpoint forM {S} (body : Z -> S -> M S) (range : list Z) (st : S) : M S :=
  match range with
  | [] => ret st
  | i :: rest => let! st' := body i st in forM body rest st'
  end.

(** [-SENSOR_RADIUS, ..., SENSOR_RADIUS]. *)
Definition sensorRange : list Z := seqZ (- SENSOR_RADIUS) (2 * SENSOR_RADIUS + 1).

Record ScanResult := mkScanResult {
  scan_readings : list SensorReading;
  newMapState : loc
}.

Definition scanEnvironment (truthGrid : loc) (robotPos : Coordinates) : M ScanResult :=
  let! newMap := copyGrid truthGrid in
  let! st :=
    forM (fun dy st =>
            forM (fun dx st' => scanCell truthGrid newMap robotPos dy dx st')
                 sensorRange st)
         sensorRange {| readings := []; mapUpdated := false |} in
  ret {| scan_readings := readings st;
         newMapState := if mapUpdated st then newMap else truthGrid |}.

(** The scheduler's use: the grid it holds becomes the returned one. *)
Fixpoint scanAll (grid : loc) (positions : list Coordinates) : M loc :=
  match positions with
  | [] => ret grid
  | p :: rest => let! r := scanEnvironment grid p in scanAll (newMapState r) rest
  end.

(** Reading a grid out of the store. *)
Definition cellOf (hp : heap) (grid : loc) (cx cy : Z) : option Cell :=
  match (let! row := index grid cy in let! cl := index row cx in readCell cl) hp with
  | Some (c, _) => Some c
  | None => None
  end.

(** [grid.flat().filter(c => c.revealed)] on a grid held as a value. *)
Definition getKnownWorld (grid : list (list Cell)) : list Cell :=
  List.filter revealed (concat grid).

End Perception.

(* ===================================================================== *)
(** * services/geminiService.ts: the decision orchestrator *)
(* ===================================================================== *)

Module Gemini.

(** JavaScript values as far as they are data: what a promise can reject
    with, what [catch (error: any)] can receive and what [JSON.parse] can
    return.  Functions are left out, so a caught value that carries a
    callable [includes] of its own is outside the model; numbers are
    finite; an object is the list of its own properties, each name
    once. *)
#[warnings="-register-all"]
Inductive Value :=
  | VUndefined
  | VNull
  | VBool (b : bool)
  | VNumber (n : Q)
  | VString (s : string)
  | VArray (items : list Value)
  | VObject (fields : list (string * Value)).

(** How one [await ai.models.generateContent(...)] ends: it resolves with a
    response whose [text] may be missing, or it rejects with any value. *)
Inductive OracleOutcome :=
  | Resolves (text : option string)
  | Rejects (e : Value).

(** What the function does to the outside, in order. *)
Inductive Event :=
  | OracleCall
  | ConsoleWarn
  | Delay (ms : Z)
  | ConsoleError.

(** How the call ends for its caller: the promise resolves with a value, or
    it rejects with the [TypeError] raised inside the [catch] handler. *)
Inductive Completion :=
  | Returned (v : Value)
  | ThrewTypeError.

(** [s.includes(sub)] on strings. *)
Fixpoint includes (s sub : string) : bool :=
  String.prefix sub s ||
  match s with
  | EmptyString => false
  | String _ s' => includes s' sub
  end.

(** The own property [name] of an object, [undefined] when it has none. *)
Fixpoint lookupField (name : string) (fields : list (string * Value)) : Value :=
  match fields with
  | [] => VUndefined
  | (k, v) :: rest => if String.eqb k name then v else lookupField name rest
  end.

(** [v.name] for the names the handler reads, [status], [code] and
    [message]: a [TypeError] ([None]) on [undefined] and [null], the
    property on an object, and [undefined] on the other values, none of
    which defines these names. *)
Definition getField (v : Value) (name : string) : option Value :=
  match v with
  | VUndefined | VNull => None
  | VObject fields => Some (lookupField name fields)
  | VBool _ | VNumber _ | VString _ | VArray _ => Some VUndefined
  end.

(** [v === 429]. *)
Definition is429 (v : Value) : bool :=
  match v with
  | VNumber n => Qeq_bool n 429
  | _ => false
  end.

(** Truthiness of a value. *)
Definition truthyValue (v : Value) : bool :=
  match v with
  | VUndefined | VNull => false
  | VBool b => b
  | VNumber n => negb (Qeq_bool n 0)
  | VString s => truthy s
  | VArray _ | VObject _ => true
  end.

(** [m.includes(sub)] for a string [sub]: the substring test on a string,
    membership in an array, and a [TypeError] ([None]) on every other
    value, which has no method of that name. *)
Definition callIncludes (m : Value) (sub : string) : option bool :=
  match m with
  | VString s => Some (includes s sub)
  | VArray items =>
      Some (existsb (fun item => match item with
                                 | VString t => String.eqb t sub
                                 | _ => false
                                 end) items)
  | VUndefined | VNull | VBool _ | VNumber _ | VObject _ => None
  end.

(** The classification in the handler,
    [error.status === 429 || error.code === 429 || (error.message &&
    (error.message.includes('429') || ...))], evaluated from left to right:
    [None] when the evaluation itself throws. *)
Definition isRateLimit (error : Value) : option bool :=
  match getField error "status" with
  | None => None
  | Some status =>
      if is429 status then Some true
      else
        match getField error "code" with
        | None => None
        | Some code =>
            if is429 code then Some true
            else
              match getField error "message" with
              | None => None
              | Some m =>
                  if truthyValue m then
                    match callIncludes m "429" with
                    | None => None
                    | Some true => Some true
                    | Some false =>
                        match callIncludes m "quota" with
                        | None => None
                        | Some true => Some true
                        | Some false => callIncludes m "RESOURCE_EXHAUSTED"
                        end
                    end
                  else Some false
              end
        end
  end.

Definition maxAttempts : nat := 3.

(** [new Error(msg)], and the [SyntaxError] of [JSON.parse]: an object whose
    [message] is the text. *)
Definition errorWith (msg : string) : Value :=
  VObject [("message"%string, VString msg)].

Definition emptyPayload : Value :=
  errorWith "Empty response payload from Intelligence Layer".

Definition faultFallback : Value :=
  VObject
    [ ("reasoning"%string,
       VString "Communication fault or Rate Limit with AI Core. Initiating fallback exploration.");
      ("action"%string, VString "EXPLORE");
      ("priority"%string, VString "LOW") ].

Definition timeoutFallback : Value :=
  VObject
    [ ("reasoning"%string, VString "System Timeout. Fallback active.");
      ("action"%string, VString "EXPLORE");
      ("priority"%string, VString "LOW") ].

Section Orchestrator.

(** [JSON.parse(text)]: the parsed value, of whatever shape, or the message
    of the thrown [SyntaxError].  The source returns the value under an
    unchecked cast to [DecisionResponse]. *)
Variable JSON_parse : string -> string + Value.

(** The oracle, as the outcome of its n-th call (counting from 0). *)
Variable oracle : nat -> OracleOutcome.

(** The [try] block: the awaited call, the test of [response.text], the
    parse, and the thrown "empty payload" error.  [inl] is the value
    thrown, [inr] the value returned. *)
Definition tryBlock (outcome : OracleOutcome) : Value + Value :=
  match outcome with
  | Rejects e => inl e
  | Resolves (Some text) =>
      if truthy text then
        match JSON_parse text with
        | inl msg => inl (errorWith msg)
        | inr v => inr v
        end
      else inl emptyPayload
  | Resolves None => inl emptyPayload
  end.

(** The [while (attempts < maxAttempts)] loop with its [catch] handler.
    Every call that does not return raises [attempts], so the number of the
    next call is [attempts].  A handler that throws while it classifies the
    caught value ends the call there, before anything is logged. *)
Equations? retryLoop (attempts : nat) (backoff : Z) (trace : list Event)
  : Completion * list Event by wf (maxAttempts - attempts)%nat lt :=
retryLoop attempts backoff trace with lt_dec attempts maxAttempts := {
  | right _ => (Returned timeoutFallback, trace)
  | left _ with tryBlock (oracle attempts) := {
    | inr decision => (Returned decision, trace ++ [OracleCall])
    | inl error with isRateLimit error := {
      | None => (ThrewTypeError, trace ++ [OracleCall])
      | Some rateLimit with rateLimit && (S attempts <? maxAttempts)%nat := {
        | true =>
            retryLoop (S attempts) (backoff * 2)
                      (trace ++ [OracleCall; ConsoleWarn; Delay backoff])
        | false => (Returned faultFallback, trace ++ [OracleCall; ConsoleError])
        }
      }
    }
  }.
Proof. unfold maxAttempts in *. lia. Qed.

Definition getDecisionFromGemini : Completion * list Event :=
  retryLoop 0 2000 [].

End Orchestrator.

End Gemini.

(* ===================================================================== *)
(** * App.tsx: the simulation state and its updates *)
(* ===================================================================== *)

Module App.

Record AppState := mkAppState {
  grid : list (list Cell);
  robot : RobotState;
  metrics : SimulationMetrics;
  isRunning : bool
}.

(** Field updates of the robot state, [{ ...prev, field: v }]. *)
Definition with_status (v : RobotStatus.t) (r : RobotState) : RobotState :=
  {| pos := pos r; battery := battery r; health := health r; status := v;
     victimsRescued := victimsRescued r; firesExtinguished := firesExtinguished r;
     path := path r; currentGoal := currentGoal r; logs := logs r |}.

Definition with_path (v : list Coordinates) (r : RobotState) : RobotState :=
  {| pos := pos r; battery := battery r; health := health r; status := status r;
     victimsRescued := victimsRescued r; firesExtinguished := firesExtinguished r;
     path := v; currentGoal := currentGoal r; logs := logs r |}.

Definition with_pos (v : Coordinates) (r : RobotState) : RobotState :=
  {| pos := v; battery := battery r; health := health r; status := status r;
     victimsRescued := victimsRescued r; firesExtinguished := firesExtinguished r;
     path := path r; currentGoal := currentGoal r; logs := logs r |}.

Definition with_battery (v : Q) (r : RobotState) : RobotState :=
  {| pos := pos r; battery := v; health := health r; status := status r;
     victimsRescued := victimsRescued r; firesExtinguished := firesExtinguished r;
     path := path r; currentGoal := currentGoal r; logs := logs r |}.

Definition with_victimsRescued (v : Z) (r : RobotState) : RobotState :=
  {| pos := pos r; battery := battery r; health := health r; status := status r;
     victimsRescued := v; firesExtinguished := firesExtinguished r;
     path := path r; currentGoal := currentGoal r; logs := logs r |}.

Definition with_firesExtinguished (v : Z) (r : RobotState) : RobotState :=
  {| pos := pos r; battery := battery r; health := health r; status := status r;
     victimsRescued := victimsRescued r; firesExtinguished := v;
     path := path r; currentGoal := currentGoal r; logs := logs r |}.

Definition with_currentGoal (v : option Coordinates) (r : RobotState) : RobotState :=
  {| pos := pos r; battery := battery r; health := health r; status := status r;
     victimsRescued := victimsRescued r; firesExtinguished := firesExtinguished r;
     path := path r; currentGoal := v; logs := logs r |}.

(** [log]: [setRobot(prev => ({ ...prev, logs: [...prev.logs, entry] }))]. *)
Definition log (source : SystemModule.t) (msg : string) (ty : LogType)
    (prev : RobotState) : RobotState :=
  {| pos := pos prev; battery := battery prev; health := health prev;
     status := status prev; victimsRescued := victimsRescued prev;
     firesExtinguished := firesExtinguished prev; path := path prev;
     currentGoal := currentGoal prev;
     logs := logs prev ++ [createLog source msg ty] |}.

Definition with_robot (f : RobotState -> RobotState) (st : AppState) : AppState :=
  {| grid := grid st; robot := f (robot st); metrics := metrics st;
     isRunning := isRunning st |}.

Definition handleEmergencyStop (st : AppState) : AppState :=
  let r1 := with_path [] (with_status RobotStatus.EMERGENCY_STOP (robot st)) in
  let r2 := log SystemModule.SAFETY
              "EMERGENCY STOP TRIGGERED BY OPERATOR. ALL SYSTEMS HALTED." ERROR r1 in
  {| grid := grid st; robot := r2; metrics := metrics st; isRunning := false |}.

(** [ng[cy][cx].type = t] on a copy of the grid. *)
Definition setType (g : list (list Cell)) (cx cy : Z) (t : CellType.t)
  : list (list Cell) :=
  alter (alter (withType t) (Z.to_nat cx)) (Z.to_nat cy) g.

Definition Qlt_bool (a b : Q) : bool := negb (Qle_bool b a).

Definition drainRateOf (robotConfig : option RobotConfig) : Q :=
  match robotConfig with
  | Some c => or_default_Q (batteryDrainRate c) 1.0
  | None => 1.0%Q
  end.

Definition revealedCount (g : list (list Cell)) : Z :=
  Z.of_nat (length (List.filter revealed (concat g))).

Definition telemetry (st0 : AppState) (st : AppState) : AppState :=
  {| grid := grid st; robot := robot st;
     metrics := updateMetrics (metrics st) (battery (robot st0))
                  (revealedCount (grid st0)) (GRID_SIZE * GRID_SIZE)
                  (victimsRescued (robot st0)) (firesExtinguished (robot st0));
     isRunning := isRunning st |}.

(** Layers 3 and 4 of the tick callback, the code that follows
    [if (robot.status === RobotStatus.PLANNING) return]: the hazard actions,
    the ordinary move, the end of the path, and the telemetry update of the
    branches that do not return before it.  The callback reads [robot] and
    [grid] of the render it was created in; the effect is set up again after
    every state change, so they are the state the updates apply to. *)
Definition controlLayer (robotConfig : option RobotConfig) (st : AppState)
  : result AppState :=
  let robot0 := robot st in
  match path robot0 with
  | nextStep :: _ =>
      match cellAt (grid st) (x nextStep) (y nextStep) with
      | None => TypeError
      | Some targetCell =>
          if CellType.eqb (type targetCell) CellType.FIRE then
            let batteryDrainRate := drainRateOf robotConfig in
            let r1 := log SystemModule.CONTROL "Activating suppression system." WARNING robot0 in
            let r2 := with_firesExtinguished (firesExtinguished r1 + 1)
                        (with_battery (battery r1 - 5 * batteryDrainRate)%Q r1) in
            Ok {| grid := setType (grid st) (x nextStep) (y nextStep) CellType.DEBRIS;
                  robot := r2; metrics := metrics st; isRunning := isRunning st |}
          else if CellType.eqb (type targetCell) CellType.VICTIM then
            let batteryDrainRate := drainRateOf robotConfig in
            let r1 := log SystemModule.CONTROL
                        "Victim secured. Medical protocol initiated." SUCCESS robot0 in
            let r2 := with_battery (battery r1 - 10 * batteryDrainRate)%Q
                        (with_victimsRescued (victimsRescued r1 + 1)
                           (with_path (tail (path r1)) (with_pos nextStep r1))) in
            Ok {| grid := setType (grid st) (x nextStep) (y nextStep) CellType.EMPTY;
                  robot := r2; metrics := metrics st; isRunning := isRunning st |}
          else
            let controlResult :=
              executeControlStep (pos robot0) nextStep (battery robot0)
                                 (type targetCell) robotConfig in
            if success controlResult then
              Ok (telemetry st
                    (with_robot (fun prev =>
                       with_status RobotStatus.MOVING
                         (with_battery (newBattery controlResult)
                            (with_path (tail (path prev)) (with_pos nextStep prev)))) st))
            else
              let msg := match message controlResult with
                         | Some m => if truthy m then m else "Movement Error"%string
                         | None => "Movement Error"%string
                         end in
              Ok (telemetry st
                    (with_robot (fun prev =>
                       with_status RobotStatus.IDLE
                         (with_path [] (log SystemModule.CONTROL msg ERROR prev))) st))
      end
  | [] =>
      if (x (pos robot0) =? 0) && (y (pos robot0) =? 0)
         && Qlt_bool (battery robot0) MAX_BATTERY
      then
        Ok (telemetry st
              (with_robot (fun prev =>
                 log SystemModule.CONTROL "Docked. Charging..." INFO
                   (with_status RobotStatus.RECHARGING prev)) st))
      else
        Ok (telemetry st (with_robot (with_status RobotStatus.IDLE) st))
  end.

Definition string_of_Action (a : Action) : string :=
  match a with
  | MOVE => "MOVE" | RESCUE => "RESCUE" | EXTINGUISH => "EXTINGUISH"
  | EXPLORE => "EXPLORE" | RECHARGE => "RECHARGE"
  end.

Definition string_of_Priority (p : Priority) : string :=
  match p with
  | HIGH => "HIGH" | MEDIUM => "MEDIUM" | LOW => "LOW"
  end.

Definition string_of_nat (n : nat) : string :=
  NilZero.string_of_uint (Nat.to_uint n).

(** [runIntelligenceLayer] up to its [await]: the guard on the robot the
    tick saw, the switch to Planning, and the known world sent to the
    oracle.  [None]: the guard returned. *)
Definition runIntelligenceLayer_request
    (currentRobot : RobotState) (currentGrid : list (list Cell))
    (prev : RobotState) : option (RobotState * list Cell) :=
  if RobotStatus.eqb (status currentRobot) RobotStatus.EMERGENCY_STOP then None
  else
    Some (log SystemModule.INTELLIGENCE "Acquiring situational awareness..." INFO
            (with_status RobotStatus.PLANNING prev),
          Perception.getKnownWorld currentGrid).

(** [runIntelligenceLayer] from the point where the awaited decision
    arrives.  [currentRobot] and [currentGrid] are the values the call was
    started with; [prev] is the robot state at the time of the resolution,
    the one the functional [setRobot] updates receive; [random] is the value
    of [Math.random()] drawn by the exploration branch. *)
Definition runIntelligenceLayer_resume
    (currentRobot : RobotState) (currentGrid : list (list Cell))
    (decision : DecisionResponse) (random : Q)
    (prev : RobotState) : result RobotState :=
  let r1 :=
    log SystemModule.INTELLIGENCE
      ("Strategy: " +:+ string_of_Action (action decision) +:+ " (" +:+
       string_of_Priority (priority decision) +:+ ") - " +:+ reasoning decision)
      SUCCESS prev in
  let finish (r : RobotState) (nextStatus : RobotStatus.t) (newPath : list Coordinates) :=
    Ok (with_currentGoal (targetCoordinates decision)
          (with_path newPath (with_status nextStatus r))) in
  match action decision, targetCoordinates decision with
  | RECHARGE, _ =>
      if (x (pos currentRobot) =? 0) && (y (pos currentRobot) =? 0) then
        Ok (log SystemModule.CONTROL
              "Docked at charging station. Initiating recharge sequence." INFO
              (with_status RobotStatus.RECHARGING r1))
      else
        match planPath (pos currentRobot) (mkCoordinates 0 0) currentGrid with
        | Ok newPath =>
            finish (log SystemModule.PLANNING "Returning to base for recharge." WARNING r1)
                   RobotStatus.MOVING newPath
        | TypeError => TypeError
        | OutOfFuel => OutOfFuel
        end
  | _, Some target =>
      match planPath (pos currentRobot) target currentGrid with
      | Ok newPath =>
          match newPath with
          | [] =>
              finish (log SystemModule.PLANNING "No viable path to target. Aborting." WARNING r1)
                     RobotStatus.IDLE newPath
          | _ :: _ =>
              finish (log SystemModule.PLANNING
                        ("Path computed: " +:+ string_of_nat (length newPath) +:+ " steps.")
                        INFO r1)
                     RobotStatus.MOVING newPath
          end
      | TypeError => TypeError
      | OutOfFuel => OutOfFuel
      end
  | EXPLORE, None =>
      let unknownCells := List.filter (fun c => negb (revealed c)) (concat currentGrid) in
      match unknownCells with
      | [] => finish r1 RobotStatus.MOVING []
      | _ :: _ =>
          let i := Qfloor (random * inject_Z (Z.of_nat (length unknownCells))) in
          match (if i <? 0 then None else unknownCells !! Z.to_nat i) with
          | Some target =>
              match planPath (pos currentRobot)
                             (mkCoordinates (cell_x target) (cell_y target)) currentGrid with
              | Ok newPath =>
                  finish (log SystemModule.PLANNING "Exploration vector calculated." INFO r1)
                         RobotStatus.MOVING newPath
              | TypeError => TypeError
              | OutOfFuel => OutOfFuel
              end
          | None => TypeError
          end
      end
  | _, None => finish r1 RobotStatus.MOVING []
  end.

(** ** initSimulation: the procedural map *)

Section Generation.

(** The successive values of [Math.random()]. *)
Variable rnd : nat -> Q.
Variable scenario : ScenarioConfig.

(** One cell of the map and the number of random values used so far. *)
Definition genCell (cx cy : Z) (i : nat) : Cell * nat :=
  let rand := rnd i in
  let '(ty, i') :=
    if (cx =? 0) && (cy =? 0) then (CellType.START, S i)
    else if Qlt_bool rand (obstacleDensity scenario) then
      (if Qlt_bool 0.5 (rnd (S i)) then CellType.WALL else CellType.DEBRIS, S (S i))
    else (CellType.EMPTY, S i) in
  ({| cell_x := cx; cell_y := cy; type := ty;
      revealed := (cx <? 2) && (cy <? 2);
      difficulty := MOVEMENT_COST ty; victimPriority := None |}, i').

Fixpoint genRow (cy : Z) (xs : list Z) (i : nat) : list Cell * nat :=
  match xs with
  | [] => ([], i)
  | cx :: xs' =>
      let '(c, i1) := genCell cx cy i in
      let '(row, i2) := genRow cy xs' i1 in
      (c :: row, i2)
  end.

Fixpoint genGrid (ys : list Z) (i : nat) : list (list Cell) * nat :=
  match ys with
  | [] => ([], i)
  | cy :: ys' =>
      let '(row, i1) := genRow cy (seqZ 0 GRID_SIZE) i in
      let '(rows, i2) := genGrid ys' i1 in
      (row :: rows, i2)
  end.

(** [placeRandom]: [remaining] is [1000 - attempts]. *)
Fixpoint placeLoop (ty : CellType.t) (count : Z) (remaining : nat) (placed : Z)
    (newGrid : list (list Cell)) (i : nat) : result (list (list Cell) * nat) :=
  match remaining with
  | O => Ok (newGrid, i)
  | S remaining' =>
      if placed <? count then
        let rx := Qfloor (rnd i * inject_Z GRID_SIZE) in
        let ry := Qfloor (rnd (S i) * inject_Z GRID_SIZE) in
        match cellAt newGrid rx ry with
        | None => TypeError
        | Some c =>
            if CellType.eqb (type c) CellType.EMPTY && ((rx >? 2) || (ry >? 2)) then
              placeLoop ty count remaining' (placed + 1)
                        (setType newGrid rx ry ty) (S (S i))
            else
              placeLoop ty count remaining' placed newGrid (S (S i))
        end
      else Ok (newGrid, i)
  end.

Definition placeRandom (ty : CellType.t) (count : Z)
    (newGrid : list (list Cell)) (i : nat) : result (list (list Cell) * nat) :=
  placeLoop ty count 1000 0 newGrid i.

(** The map before the victims and fires are placed. *)
Definition proceduralMap : list (list Cell) * nat :=
  genGrid (seqZ 0 GRID_SIZE) 0.

(** The grid [initSimulation] hands to [setGrid]. *)
Definition initSimulation : result (list (list Cell)) :=
  let '(newGrid, i) := proceduralMap in
  match placeRandom CellType.VICTIM (victimCount scenario) newGrid i with
  | Ok (g1, i1) =>
      match placeRandom CellType.FIRE (fireCount scenario) g1 i1 with
      | Ok (g2, _) => Ok g2
      | TypeError => TypeError
      | OutOfFuel => OutOfFuel
      end
  | TypeError => TypeError
  | OutOfFuel => OutOfFuel
  end.

End Generation.

End App.

(* ===================================================================== *)
(** * Vocabulary of the properties *)
(* ===================================================================== *)

(** The profile ranges of the data model. *)
Definition profileInRange (c : RobotConfig) : Prop :=
  (0.5 <= speedMultiplier c /\ speedMultiplier c <= 2.0)%Q /\
  (0.5 <= batteryDrainRate c /\ batteryDrainRate c <= 1.5)%Q.


Definition profileOf (speed rate : Q) : RobotConfig :=
  {| robot_id := "test"; robot_name := "Test"; robot_description := "Test robot";
     speedMultiplier := speed; batteryDrainRate := rate; maxHealth := 100 |}.

(** A [GRID_SIZE] x [GRID_SIZE] grid given cell by cell. *)
Definition gridOf (ty : Z -> Z -> CellType.t) (rev : Z -> Z -> bool) : list (list Cell) :=
  map (fun cy =>
         map (fun cx =>
                {| cell_x := cx; cell_y := cy; type := ty cx cy; revealed := rev cx cy;
                   difficulty := MOVEMENT_COST (ty cx cy); victimPriority := None |})
             (seqZ 0 GRID_SIZE))
      (seqZ 0 GRID_SIZE).

(** A grid has the shape the scheduler keeps: [GRID_SIZE] rows of
    [GRID_SIZE] cells. *)
Definition wellFormed (g : list (list Cell)) : Prop :=
  length g = Z.to_nat GRID_SIZE /\
  Forall (fun row => length row = Z.to_nat GRID_SIZE) g.

(** The inputs of a run of telemetry updates: battery
    levels in [0, 100] and counters that never go down. *)
Definition metricsInputsValid (inputs : list MetricsInput) : Prop :=
  Forall (fun i => (0 <= in_batteryLevel i /\ in_batteryLevel i <= 100)%Q) inputs /\
  Sorted Z.le (map in_victimsRescued inputs) /\
  Sorted Z.le (map in_firesExtinguished inputs).

(** The battery recovers from 50 to 100 between two updates. *)
Definition rechargeInputs : list MetricsInput :=
  [ {| in_batteryLevel := 50; in_exploredCount := 9; in_totalCells := 225;
       in_victimsRescued := 0; in_firesExtinguished := 0 |};
    {| in_batteryLevel := 100; in_exploredCount := 9; in_totalCells := 225;
       in_victimsRescued := 0; in_firesExtinguished := 0 |} ].

(** The battery does not rise from one update to the next. *)
Definition batteryNotRising (b b' : Q) : Prop := (b' <= b)%Q.

(** A mission under way: every cell revealed, a victim (or a fire) at
    (3,0), a cell where [initSimulation] can place one, the robot next to
    it at (2,0) with three percent of battery left. *)
Definition victimAhead : list (list Cell) :=
  gridOf (fun cx cy =>
            if (cx =? 0) && (cy =? 0) then CellType.START
            else if (cx =? 3) && (cy =? 0) then CellType.VICTIM
            else CellType.EMPTY)
         (fun _ _ => true).

Definition fireAhead : list (list Cell) :=
  gridOf (fun cx cy =>
            if (cx =? 0) && (cy =? 0) then CellType.START
            else if (cx =? 3) && (cy =? 0) then CellType.FIRE
            else CellType.EMPTY)
         (fun _ _ => true).

Definition lowBatteryRobot : RobotState :=
  {| pos := mkCoordinates 2 0; battery := 3; health := 100;
     status := RobotStatus.MOVING; victimsRescued := 0; firesExtinguished := 0;
     path := [mkCoordinates 3 0]; currentGoal := Some (mkCoordinates 3 0);
     logs := [] |}.

Definition stateOf (g : list (list Cell)) (r : RobotState) : App.AppState :=
  {| App.grid := g; App.robot := r; App.metrics := initialMetrics;
     App.isRunning := true |}.

(** A mission that has just started: the map as [initSimulation] reveals
    it, the robot idle at the charge point. *)
Definition openGrid : list (list Cell) :=
  gridOf (fun cx cy => if (cx =? 0) && (cy =? 0) then CellType.START else CellType.EMPTY)
         (fun cx cy => (cx <? 2) && (cy <? 2)).

Definition idleRobot : RobotState :=
  {| pos := mkCoordinates 0 0; battery := 100; health := 100;
     status := RobotStatus.IDLE; victimsRescued := 0; firesExtinguished := 0;
     path := []; currentGoal := None; logs := [] |}.

Definition moveDecision : DecisionResponse :=
  {| reasoning := "Victim detected"; action := MOVE;
     targetCoordinates := Some (mkCoordinates 2 0); priority := HIGH |}.

(** The number of oracle calls in a trace, and its waits in order. *)
Definition oracleCalls (trace : list Gemini.Event) : nat :=
  length (List.filter (fun e => match e with Gemini.OracleCall => true | _ => false end)
                      trace).

Definition delays (trace : list Gemini.Event) : list Z :=
  omap (fun e => match e with Gemini.Delay ms => Some ms | _ => None end) trace.

(** The first [k] attempts all fail with an error classified as a rate
    limit. *)
Definition throttledUpTo (JSON_parse : string -> string + Gemini.Value)
    (oracle : nat -> Gemini.OracleOutcome) (k : nat) : Prop :=
  forall i, (i < k)%nat ->
    exists e, Gemini.tryBlock JSON_parse (oracle i) = inl e /\
              Gemini.isRateLimit e = Some true.

(** The caught values the handler can classify: every value but [undefined]
    and [null], provided that, for an object whose [status] and [code] are
    not 429, the [message] is falsy, a string or an array. *)
Definition classifiable (e : Gemini.Value) : Prop :=
  match e with
  | Gemini.VUndefined | Gemini.VNull => False
  | Gemini.VObject fields =>
      Gemini.is429 (Gemini.lookupField "status" fields) = true \/
      Gemini.is429 (Gemini.lookupField "code" fields) = true \/
      match Gemini.lookupField "message" fields with
      | Gemini.VString _ | Gemini.VArray _ => True
      | m => Gemini.truthyValue m = false
      end
  | _ => True
  end.

(** An oracle whose every failure the handler can classify. *)
Definition classifiableOracle (JSON_parse : string -> string + Gemini.Value)
    (oracle : nat -> Gemini.OracleOutcome) : Prop :=
  forall n e, Gemini.tryBlock JSON_parse (oracle n) = inl e -> classifiable e.

(** [JSON.parse] as far as the text [null] goes: it parses to [null]; any
    other text is taken not to parse. *)
Definition parseNull (text : string) : string + Gemini.Value :=
  if String.eqb text "null" then inr Gemini.VNull
  else inl "Unexpected token"%string.

(** A rejection with the HTTP status 429. *)
Definition tooManyRequests : Gemini.Value :=
  Gemini.VObject [("status"%string, Gemini.VNumber 429);
                  ("message"%string, Gemini.VString "Too Many Requests")].

(** [Math.random()] returns values in [0, 1). *)
Definition randomStream (rnd : nat -> Q) : Prop :=
  forall n, (0 <= rnd n /\ rnd n < 1)%Q.

Definition isHazard (t : CellType.t) : Prop :=
  t = CellType.VICTIM \/ t = CellType.FIRE.

(** What the first pass of [initSimulation] puts at [(cx, cy)]. *)
Definition baseCell (cx cy : Z) (c : Cell) : Prop :=
  cell_x c = cx /\ cell_y c = cy /\
  revealed c = (cx <? 2) && (cy <? 2) /\
  ~ isHazard (type c).

(** ** Grids held in the store *)

(** The store holds at [grid] an array of [GRID_SIZE] rows, each an array of
    [GRID_SIZE] cell objects. *)
Definition isCellArray (hp : Perception.heap) (cells : list Perception.loc) : Prop :=
  Forall (fun cl => exists c, hp !! cl = Some (Perception.ObjCell c)) cells.

Definition isRow (hp : Perception.heap) (r : Perception.loc) : Prop :=
  exists cells,
    hp !! r = Some (Perception.ObjArray cells) /\
    length cells = Z.to_nat GRID_SIZE /\
    isCellArray hp cells.

Definition isGrid (hp : Perception.heap) (grid : Perception.loc) : Prop :=
  exists rows,
    hp !! grid = Some (Perception.ObjArray rows) /\
    length rows = Z.to_nat GRID_SIZE /\
    Forall (isRow hp) rows.

(** The cell [(cx, cy)] is on the grid and inside the sensor window around
    [robotPos]. *)
Definition inWindow (robotPos : Coordinates) (cx cy : Z) : Prop :=
  (0 <= cx < GRID_SIZE /\ 0 <= cy < GRID_SIZE) /\
  Z.abs (cx - x robotPos) <= Perception.SENSOR_RADIUS /\
  Z.abs (cy - y robotPos) <= Perception.SENSOR_RADIUS.

(** Some cell of the window is not yet revealed in the grid at [grid]. *)
Definition revealsNew (hp : Perception.heap) (grid : Perception.loc)
    (robotPos : Coordinates) : Prop :=
  exists cx cy c,
    inWindow robotPos cx cy /\
    Perception.cellOf hp grid cx cy = Some c /\ revealed c = false.

(** The cell at [(cx, cy)] of the grid at [grid] is revealed. *)
Definition revealedAt (hp : Perception.heap) (grid : Perception.loc) (cx cy : Z) : Prop :=
  exists c, Perception.cellOf hp grid cx cy = Some c /\ revealed c = true.

(** [isGrid] as a test. *)
Definition isGridb (hp : Perception.heap) (grid : Perception.loc) : bool :=
  match hp !! grid with
  | Some (Perception.ObjArray rows) =>
      (length rows =? Z.to_nat GRID_SIZE)%nat &&
      forallb (fun r =>
                 match hp !! r with
                 | Some (Perception.ObjArray cells) =>
                     (length cells =? Z.to_nat GRID_SIZE)%nat &&
                     forallb (fun cl =>
                                match hp !! cl with
                                | Some (Perception.ObjCell _) => true
                                | _ => false
                                end) cells
                 | _ => false
                 end) rows
  | _ => false
  end.

(** A grid value put into the store, cell by cell and row by row. *)
Fixpoint allocCells (cells : list Cell) : Perception.M (list Perception.loc) :=
  match cells with
  | [] => Perception.ret []
  | c :: rest =>
      Perception.bind (Perception.alloc (Perception.ObjCell c)) (fun l =>
      Perception.bind (allocCells rest) (fun ls => Perception.ret (l :: ls)))
  end.

Fixpoint allocRows (g : list (list Cell)) : Perception.M (list Perception.loc) :=
  match g with
  | [] => Perception.ret []
  | row :: rest =>
      Perception.bind (allocCells row) (fun cells =>
      Perception.bind (Perception.alloc (Perception.ObjArray cells)) (fun r =>
      Perception.bind (allocRows rest) (fun rs => Perception.ret (r :: rs))))
  end.

Definition allocGrid (g : list (list Cell)) : Perception.M Perception.loc :=
  Perception.bind (allocRows g) (fun rows =>
  Perception.alloc (Perception.ObjArray rows)).

(** The store of a mission that has just started: [openGrid] and nothing
    else. *)
Definition startStore : Perception.loc * Perception.heap :=
  match allocGrid openGrid ∅ with
  | Some p => p
  | None => (1%positive, ∅)
  end.

(** ** Paths on the belief grid *)

Definition inBounds (c : Coordinates) : Prop :=
  0 <= x c < GRID_SIZE /\ 0 <= y c < GRID_SIZE.

(** The traversability rule: a cell blocks only if it is a revealed wall. *)
Definition blocked (cell : Cell) : Prop :=
  type cell = CellType.WALL /\ revealed cell = true.

Definition passable (g : list (list Cell)) (c : Coordinates) : Prop :=
  inBounds c /\
  exists cell, cellAt g (x c) (y c) = Some cell /\ ~ blocked cell.

(** 4-connected: one step up, down, left or right. *)
Definition adjacent (a b : Coordinates) : Prop :=
  exists o, o ∈ neighbors /\ b = mkCoordinates (x a + x o) (y a + y o).

(** A move from [a] enters the passable cell [b] next to it. *)
Definition step (g : list (list Cell)) (a b : Coordinates) : Prop :=
  adjacent a b /\ passable g b.

Definition reachable (g : list (list Cell)) (start target : Coordinates) : Prop :=
  rtc (step g) start target.

(** [p] lists the cells entered, in order, by moves that begin at [a]. *)
Fixpoint walk (g : list (list Cell)) (a : Coordinates) (p : list Coordinates) : Prop :=
  match p with
  | [] => True
  | b :: p' => step g a b /\ walk g b p'
  end.

(** The same as tests. *)
Definition adjacentb (a b : Coordinates) : bool :=
  existsb (fun o => (x b =? x a + x o) && (y b =? y a + y o)) neighbors.

Definition passableb (g : list (list Cell)) (c : Coordinates) : bool :=
  (0 <=? x c) && (x c <? GRID_SIZE) && (0 <=? y c) && (y c <? GRID_SIZE) &&
  match cellAt g (x c) (y c) with
  | Some cell => negb (CellType.eqb (type cell) CellType.WALL && revealed cell)
  | None => false
  end.

Fixpoint walkb (g : list (list Cell)) (a : Coordinates) (p : list Coordinates) : bool :=
  match p with
  | [] => true
  | b :: p' => adjacentb a b && passableb g b && walkb g b p'
  end.

(** The difficulty cost of a path: the movement cost of each cell entered. *)
Definition moveCost (g : list (list Cell)) (c : Coordinates) : Z :=
  match cellAt g (x c) (y c) with
  | Some cell => MOVEMENT_COST (type cell)
  | None => 0
  end.

Definition pathCost (g : list (list Cell)) (p : list Coordinates) : Z :=
  foldr (fun c acc => moveCost g c + acc) 0 p.

(** Everything revealed and empty, but for debris at (0,1) and (0,2). *)
Definition debrisGrid : list (list Cell) :=
  gridOf (fun cx cy =>
            if (cx =? 0) && (cy =? 0) then CellType.START
            else if (cx =? 0) && ((cy =? 1) || (cy =? 2)) then CellType.DEBRIS
            else CellType.EMPTY)
         (fun _ _ => true).

(** The positions of a node and of a pair of coordinates as keys of the
    closed list. *)
Definition coord (n : Node) : Coordinates := mkCoordinates (node_x n) (node_y n).
Definition keyOf (c : Coordinates) : Z * Z := key (x c) (y c).

(** The keys of all cells of the grid. *)
Definition cellKeys : list (Z * Z) :=
  concat (map (fun cx => map (fun cy => key cx cy) (seqZ 0 GRID_SIZE)) (seqZ 0 GRID_SIZE)).

(** ** Invariants of the planner's loop *)

Definition startNodeOf (start : Coordinates) : Node :=
  {| node_x := x start; node_y := y start; node_g := 0; node_h := 0;
     node_f := 0; node_parent := None |}.

(** The parent chain of a node, read from the root, is the start followed
    by a walk that ends at the node and does not come back to the start. *)
Definition nodeWalk (g : list (list Cell)) (start : Coordinates) (n : Node) : Prop :=
  exists p,
    rev (chain n) = start :: p /\ last (start :: p) = Some (coord n) /\
    walk g start p /\ start ∉ p.

(** The positions a search from [start] can ever close. *)
Definition universe (start : Coordinates) : gset (Z * Z) :=
  {[ keyOf start ]} ∪ list_to_set cellKeys.

(** While the neighbours of [cur] are visited. *)
Definition midInv (g : list (list Cell)) (start : Coordinates) (cur : Node)
    (closedList : gset (Z * Z)) (openList : list Node) : Prop :=
  nodeWalk g start cur /\
  keyOf start ∈ closedList /\
  (forall n, n ∈ openList -> nodeWalk g start n) /\
  NoDup (map coord openList) /\
  (forall n, n ∈ openList -> keyOf (coord n) ∉ closedList) /\
  (forall n, n ∈ openList -> keyOf (coord n) ∈ universe start).

(** At the head of the [while] loop. *)
Definition planInv (g : list (list Cell)) (start target : Coordinates)
    (openList : list Node) (closedList : gset (Z * Z)) : Prop :=
  (forall n, n ∈ openList -> nodeWalk g start n) /\
  NoDup (map coord openList) /\
  (forall n, n ∈ openList -> keyOf (coord n) ∉ closedList) /\
  (forall n, n ∈ openList -> keyOf (coord n) ∈ universe start) /\
  closedList ⊆ universe start /\
  (keyOf start ∈ closedList \/ openList = [startNodeOf start]) /\
  (keyOf target ∉ closedList) /\
  (forall a b, keyOf a ∈ closedList -> step g a b ->
               keyOf b ∈ closedList \/ b ∈ map coord openList).

(** What the planner promises of the path it returns. *)
Definition planPost (g : list (list Cell)) (start target : Coordinates)
    (p : list Coordinates) : Prop :=
  (p = [] <-> start = target \/ ~ reachable g start target) /\
  (p <> [] -> last p = Some target /\ (start ∉ p) /\ walk g start p).

(** What the placement loops keep true of the grid [g] they work on,
    relative to the procedural map [g0]. *)
Definition placementInv (g0 g : list (list Cell)) : Prop :=
  wellFormed g /\
  forall cx cy c, cellAt g cx cy = Some c ->
    exists c0, cellAt g0 cx cy = Some c0 /\
      revealed c = revealed c0 /\
      (type c = type c0 \/
       (type c0 = CellType.EMPTY /\ (cx > 2 \/ cy > 2) /\ isHazard (type c))).

(** A cell of the copy of a grid of the store [hp0]: a new object that
    holds the cell it was copied from; once the scan has written to the copy
    ([upd]), possibly with [revealed] turned on. *)
Definition cellCopied (hp0 : Perception.heap) (upd : bool) (cur : Perception.heap)
    (cl clN : Perception.loc) : Prop :=
  exists c cN,
    hp0 !! cl = Some (Perception.ObjCell c) /\ cur !! clN = Some (Perception.ObjCell cN) /\
    hp0 !! clN = None /\ (cN = c \/ (upd = true /\ cN = withRevealed true c)).

Definition rowCopied (hp0 : Perception.heap) (upd : bool) (cur : Perception.heap)
    (r rN : Perception.loc) : Prop :=
  exists cells cellsN,
    hp0 !! r = Some (Perception.ObjArray cells) /\
    cur !! rN = Some (Perception.ObjArray cellsN) /\
    hp0 !! rN = None /\ Forall2 (cellCopied hp0 upd cur) cells cellsN.

(** What the scan keeps true while it visits the window: [P dy dx] holds
    of the offsets already visited, [gridN] is the copy of [grid]. *)
Definition scanInv (hp0 : Perception.heap) (grid gridN : Perception.loc)
    (rows rowsN : list Perception.loc) (robotPos : Coordinates)
    (P : Z -> Z -> Prop) (st : Perception.ScanState) (cur : Perception.heap) : Prop :=
  hp0 ⊆ cur /\
  cur !! gridN = Some (Perception.ObjArray rowsN) /\
  Forall2 (rowCopied hp0 (Perception.mapUpdated st) cur) rows rowsN /\
  (Perception.mapUpdated st = false ->
   forall dy dx c, P dy dx ->
     Perception.cellOf hp0 grid (x robotPos + dx) (y robotPos + dy) = Some c ->
     revealed c = true) /\
  (Perception.mapUpdated st = true -> revealsNew hp0 grid robotPos) /\
  (forall dy dx, P dy dx ->
     0 <= x robotPos + dx < GRID_SIZE -> 0 <= y robotPos + dy < GRID_SIZE ->
     exists cN, Perception.cellOf cur gridN (x robotPos + dx) (y robotPos + dy) = Some cN /\
                revealed cN = true).

(* ===================================================================== *)
(** * Proofs *)
(* ===================================================================== *)

(** ** The control step *)

Lemma CellType_eqb_spec (a b : CellType.t) : CellType.eqb a b = true <-> a = b.
Proof. destruct a, b; simpl; split; intros H; try reflexivity; discriminate. Qed.

Lemma CellType_eqb_neq (a b : CellType.t) : a <> b -> CellType.eqb a b = false.
Proof.
  intros Hne. destruct (CellType.eqb a b) eqn:E; [|reflexivity].
  apply CellType_eqb_spec in E. contradiction.
Qed.

Lemma or_default_Q_nonzero (a d : Q) : ~ (a == 0)%Q -> or_default_Q a d = a.
Proof.
  intros Hne. unfold or_default_Q.
  destruct (Qeq_bool a 0) eqn:E; [|reflexivity].
  apply Qeq_bool_iff in E. contradiction.
Qed.

Lemma or_default_Z_cost (t : CellType.t) :
  or_default_Z (MOVEMENT_COST t) 1 = MOVEMENT_COST t.
Proof. destruct t; reflexivity. Qed.


Lemma Math_max_zero_nonneg (q : Q) : (0 <= Math_max 0 q)%Q.
Proof. unfold Math_max. apply Q.le_max_l. Qed.

Lemma stepDrain_in_range (t : CellType.t) (c : RobotConfig) :
  profileInRange c ->
  stepDrain t (Some c)
  = (0.5 * inject_Z (MOVEMENT_COST t) * speedMultiplier c * batteryDrainRate c)%Q.
Proof.
  intros [[Hs _] [Hr _]]. unfold stepDrain.
  rewrite or_default_Z_cost.
  rewrite !or_default_Q_nonzero; [reflexivity| |]; intros E; rewrite E in *; lra.
Qed.


(** C5.  For every position pair, battery level and profile, the control
    step onto a cell of type Wall fails, leaves the battery as it was and
    reports the collision; the [revealed] flag of the cell plays no part. *)
Theorem executeControlStep_wall (currentPos nextPos : Coordinates)
    (currentBattery : Q) (cell : Cell) (robotConfig : option RobotConfig) :
  type cell = CellType.WALL ->
  executeControlStep currentPos nextPos currentBattery (type cell) robotConfig
  = {| success := false; newBattery := currentBattery;
       message := Some "COLLISION DETECTED"%string |}.
Proof. intros ->. reflexivity. Qed.

Lemma executeControlStep_wall_witness :
  let hidden := {| cell_x := 3; cell_y := 4; type := CellType.WALL; revealed := false;
                   difficulty := 999; victimPriority := None |} in
  executeControlStep (mkCoordinates 3 3) (mkCoordinates 3 4) 42.5%Q (type hidden)
                     (Some (profileOf 2.0 1.5))
  = {| success := false; newBattery := 42.5%Q;
       message := Some "COLLISION DETECTED"%string |}.
Proof. intros hidden. apply (executeControlStep_wall _ _ _ hidden). reflexivity. Defined.






(** ** Telemetry *)

Lemma updateMetrics_cost (m : SimulationMetrics) (b : Q) (e t v f : Z) :
  operationalCost (updateMetrics m b e t v f)
  = (inject_Z (stepsTaken m + 1) * COST_PER_STEP
     + (MAX_BATTERY - b) * COST_PER_BATTERY_PERCENT)%Q.
Proof. reflexivity. Qed.

Lemma updateMetrics_value (m : SimulationMetrics) (b : Q) (e t v f : Z) :
  valueGenerated (updateMetrics m b e t v f)
  = (inject_Z v * VALUE_PER_RESCUE + inject_Z f * VALUE_PER_HAZARD_CLEARED)%Q.
Proof. reflexivity. Qed.

Lemma updateMetrics_steps (m : SimulationMetrics) (b : Q) (e t v f : Z) :
  stepsTaken (updateMetrics m b e t v f) = stepsTaken m + 1.
Proof. reflexivity. Qed.

(** Between two successive updates the cost moves by 0.5 - 5 (b' - b): it
    does not go down when the battery does not rise. *)
Lemma updateMetrics_cost_step (m : SimulationMetrics) (i i' : MetricsInput) :
  let r := updateMetrics m (in_batteryLevel i) (in_exploredCount i) (in_totalCells i)
             (in_victimsRescued i) (in_firesExtinguished i) in
  let r' := updateMetrics r (in_batteryLevel i') (in_exploredCount i') (in_totalCells i')
              (in_victimsRescued i') (in_firesExtinguished i') in
  batteryNotRising (in_batteryLevel i) (in_batteryLevel i') ->
  (operationalCost r <= operationalCost r')%Q.
Proof.
  intros r r'. unfold r', r, batteryNotRising.
  rewrite !updateMetrics_cost, updateMetrics_steps.
  rewrite !inject_Z_plus. change (inject_Z 1) with 1%Q.
  unfold COST_PER_STEP, COST_PER_BATTERY_PERCENT, MAX_BATTERY.
  intros H; lra.
Qed.

Lemma updateMetrics_value_step (m : SimulationMetrics) (i i' : MetricsInput) :
  in_victimsRescued i <= in_victimsRescued i' ->
  in_firesExtinguished i <= in_firesExtinguished i' ->
  let r := updateMetrics m (in_batteryLevel i) (in_exploredCount i) (in_totalCells i)
             (in_victimsRescued i) (in_firesExtinguished i) in
  let r' := updateMetrics r (in_batteryLevel i') (in_exploredCount i') (in_totalCells i')
              (in_victimsRescued i') (in_firesExtinguished i') in
  (valueGenerated r <= valueGenerated r')%Q.
Proof.
  intros Hv Hf r r'. unfold r', r. rewrite !updateMetrics_value.
  unfold VALUE_PER_RESCUE, VALUE_PER_HAZARD_CLEARED.
  rewrite Zle_Qle in Hv, Hf. lra.
Qed.

Lemma runUpdates_value_sorted (inputs : list MetricsInput) :
  forall m,
    Sorted Z.le (map in_victimsRescued inputs) ->
    Sorted Z.le (map in_firesExtinguished inputs) ->
    Sorted Qle (map valueGenerated (runUpdates m inputs)).
Proof.
  induction inputs as [|i rest IH]; intros m Hv Hf; simpl; [constructor|].
  apply Sorted_inv in Hv as [Hv Hhv]. apply Sorted_inv in Hf as [Hf Hhf].
  constructor; [now apply IH|].
  destruct rest as [|i' rest']; simpl; [constructor|].
  constructor. apply HdRel_inv in Hhv, Hhf.
  now apply (updateMetrics_value_step m i i').
Qed.

Lemma runUpdates_cost_sorted (inputs : list MetricsInput) :
  forall m,
    Sorted batteryNotRising (map in_batteryLevel inputs) ->
    Sorted Qle (map operationalCost (runUpdates m inputs)).
Proof.
  induction inputs as [|i rest IH]; intros m Hb; simpl; [constructor|].
  apply Sorted_inv in Hb as [Hb Hhb].
  constructor; [now apply IH|].
  destruct rest as [|i' rest']; simpl; [constructor|].
  constructor. apply HdRel_inv in Hhb.
  now apply (updateMetrics_cost_step m i i').
Qed.

(** The exploration percentage on the doubles of the program: 23 cells of
    40 give 57.49999999999999 and so 57, and a zero total gives [Infinity]
    or [NaN]. *)
Lemma explorationPercent_examples :
  (explorationPercent 9 225 = 4)%float /\
  (explorationPercent 225 225 = 100)%float /\
  (explorationPercent 23 40 = 57)%float /\
  explorationPercent 1 0 = infinity /\
  explorationPercent 0 0 = nan.
Proof. repeat split; vm_compute; reflexivity. Qed.

(** C2, as stated, fails: with the battery at 50 and then at 100 the cost
    goes from 250.5 down to 1. *)
Lemma operationalCost_not_monotone :
  metricsInputsValid rechargeInputs /\
  Forall2 Qeq (map operationalCost (runUpdates initialMetrics rechargeInputs))
              [250.5%Q; 1%Q] /\
  ~ Sorted Qle (map operationalCost (runUpdates initialMetrics rechargeInputs)).
Proof.
  split; [|split].
  - unfold metricsInputsValid, rechargeInputs. simpl. repeat split.
    + repeat constructor; simpl; lra.
    + repeat constructor; simpl; lia.
    + repeat constructor; simpl; lia.
  - repeat constructor; vm_compute; reflexivity.
  - intros H. apply Sorted_inv in H as [_ H]. apply HdRel_inv in H.
    vm_compute in H. apply H. reflexivity.
Qed.

(** C2, amended.  Across any run of updates with counters that never go
    down, [valueGenerated] never goes down.  [operationalCost] is
    [steps * COST_PER_STEP + (MAX_BATTERY - batteryLevel) *
    COST_PER_BATTERY_PERCENT] for the battery level of the call, not for
    the battery consumed so far, and [valueGenerated] is [victimsRescued *
    VALUE_PER_RESCUE + firesExtinguished * VALUE_PER_HAZARD_CLEARED]: the
    cost never goes down over a run in which the battery never rises from
    one update to the next. *)
Theorem metrics_monotone (m : SimulationMetrics) (inputs : list MetricsInput) :
  Sorted Z.le (map in_victimsRescued inputs) ->
  Sorted Z.le (map in_firesExtinguished inputs) ->
  Sorted Qle (map valueGenerated (runUpdates m inputs)) /\
  (Sorted batteryNotRising (map in_batteryLevel inputs) ->
   Sorted Qle (map operationalCost (runUpdates m inputs))) /\
  (forall i i' : MetricsInput,
     map operationalCost (runUpdates m [i; i'])
     = [ (inject_Z (stepsTaken m + 1) * COST_PER_STEP
          + (MAX_BATTERY - in_batteryLevel i) * COST_PER_BATTERY_PERCENT)%Q;
         (inject_Z (stepsTaken m + 1 + 1) * COST_PER_STEP
          + (MAX_BATTERY - in_batteryLevel i') * COST_PER_BATTERY_PERCENT)%Q ] /\
     map valueGenerated (runUpdates m [i; i'])
     = [ (inject_Z (in_victimsRescued i) * VALUE_PER_RESCUE
          + inject_Z (in_firesExtinguished i) * VALUE_PER_HAZARD_CLEARED)%Q;
         (inject_Z (in_victimsRescued i') * VALUE_PER_RESCUE
          + inject_Z (in_firesExtinguished i') * VALUE_PER_HAZARD_CLEARED)%Q ]).
Proof.
  intros Hv Hf. split; [|split].
  - now apply runUpdates_value_sorted.
  - apply runUpdates_cost_sorted.
  - intros i i'. split; reflexivity.
Qed.

Lemma metrics_monotone_witness :
  let inputs :=
    [ {| in_batteryLevel := 100; in_exploredCount := 4; in_totalCells := 225;
         in_victimsRescued := 0; in_firesExtinguished := 0 |};
      {| in_batteryLevel := 90; in_exploredCount := 9; in_totalCells := 225;
         in_victimsRescued := 1; in_firesExtinguished := 0 |};
      {| in_batteryLevel := 85; in_exploredCount := 12; in_totalCells := 225;
         in_victimsRescued := 1; in_firesExtinguished := 1 |} ] in
  Sorted Qle (map valueGenerated (runUpdates initialMetrics inputs)) /\
  Sorted Qle (map operationalCost (runUpdates initialMetrics inputs)).
Proof.
  intros inputs.
  assert (Hv : Sorted Z.le (map in_victimsRescued inputs))
    by (repeat constructor; simpl; lia).
  assert (Hf : Sorted Z.le (map in_firesExtinguished inputs))
    by (repeat constructor; simpl; lia).
  destruct (metrics_monotone initialMetrics inputs Hv Hf) as (Hval & Hcost & _).
  split; [exact Hval|]. apply Hcost.
  repeat constructor; unfold batteryNotRising; simpl; lra.
Defined.

(** ** The tick loop: hazard actions *)

Lemma drainRateOf_in_range (c : RobotConfig) :
  profileInRange c -> App.drainRateOf (Some c) = batteryDrainRate c.
Proof.
  intros [_ [Hr _]]. unfold App.drainRateOf.
  apply or_default_Q_nonzero. intros E. rewrite E in Hr. lra.
Qed.

(** What the Victim branch does, for any state that reaches it. *)
Lemma controlLayer_victim (robotConfig : option RobotConfig) (st : App.AppState)
    (nextStep : Coordinates) (rest : list Coordinates) (targetCell : Cell) :
  path (App.robot st) = nextStep :: rest ->
  cellAt (App.grid st) (x nextStep) (y nextStep) = Some targetCell ->
  type targetCell = CellType.VICTIM ->
  exists st',
    App.controlLayer robotConfig st = Ok st' /\
    victimsRescued (App.robot st') = victimsRescued (App.robot st) + 1 /\
    pos (App.robot st') = nextStep /\
    path (App.robot st') = rest /\
    battery (App.robot st')
    = (battery (App.robot st) - 10 * App.drainRateOf robotConfig)%Q.
Proof.
  intros Hpath Hcell Hty. unfold App.controlLayer.
  rewrite Hpath, Hcell, Hty. simpl.
  eexists. split; [reflexivity|]. simpl. rewrite Hpath. repeat split.
Qed.

(** What the Fire branch does. *)
Lemma controlLayer_fire (robotConfig : option RobotConfig) (st : App.AppState)
    (nextStep : Coordinates) (rest : list Coordinates) (targetCell : Cell) :
  path (App.robot st) = nextStep :: rest ->
  cellAt (App.grid st) (x nextStep) (y nextStep) = Some targetCell ->
  type targetCell = CellType.FIRE ->
  exists st',
    App.controlLayer robotConfig st = Ok st' /\
    firesExtinguished (App.robot st') = firesExtinguished (App.robot st) + 1 /\
    pos (App.robot st') = pos (App.robot st) /\
    battery (App.robot st')
    = (battery (App.robot st) - 5 * App.drainRateOf robotConfig)%Q.
Proof.
  intros Hpath Hcell Hty. unfold App.controlLayer.
  rewrite Hpath, Hcell, Hty. simpl.
  eexists. split; [reflexivity|]. simpl. repeat split.
Qed.

(** The ordinary move keeps the battery at or above zero. *)
Lemma controlLayer_move_nonneg (robotConfig : option RobotConfig) (st st' : App.AppState)
    (nextStep : Coordinates) (rest : list Coordinates) (targetCell : Cell) :
  path (App.robot st) = nextStep :: rest ->
  cellAt (App.grid st) (x nextStep) (y nextStep) = Some targetCell ->
  type targetCell <> CellType.FIRE ->
  type targetCell <> CellType.VICTIM ->
  (0 <= battery (App.robot st))%Q ->
  App.controlLayer robotConfig st = Ok st' ->
  (0 <= battery (App.robot st'))%Q.
Proof.
  intros Hpath Hcell Hf Hv Hb. unfold App.controlLayer.
  rewrite Hpath, Hcell.
  rewrite (CellType_eqb_neq _ _ Hf), (CellType_eqb_neq _ _ Hv).
  unfold executeControlStep.
  destruct (CellType.eqb (type targetCell) CellType.WALL); simpl;
    intros [= <-]; simpl.
  - exact Hb.
  - apply Math_max_zero_nonneg.
Qed.

(** C3, on the code.  With three percent of battery left at (2,0), the
    rescue of the victim at (3,0) counts one more victim and leaves the
    battery at -7; the suppression of a fire there leaves it at -2.  The
    profile (1.0, 1.0) is in the ranges of the data model, and (3,0) is
    outside the zone the placement keeps free. *)
Theorem controlLayer_hazard_battery_negative :
  profileInRange (profileOf 1.0 1.0) /\
  (exists st',
     App.controlLayer (Some (profileOf 1.0 1.0)) (stateOf victimAhead lowBatteryRobot)
     = Ok st' /\
     victimsRescued (App.robot st') = 1 /\
     (battery (App.robot st') == -7)%Q /\
     (battery (App.robot st') < 0)%Q) /\
  (exists st',
     App.controlLayer (Some (profileOf 1.0 1.0)) (stateOf fireAhead lowBatteryRobot)
     = Ok st' /\
     firesExtinguished (App.robot st') = 1 /\
     (battery (App.robot st') == -2)%Q /\
     (battery (App.robot st') < 0)%Q).
Proof.
  split; [|split].
  - vm_compute. intuition discriminate.
  - eexists. split; [vm_compute; reflexivity|]. simpl.
    split; [reflexivity|]. split; vm_compute; reflexivity.
  - eexists. split; [vm_compute; reflexivity|]. simpl.
    split; [reflexivity|]. split; vm_compute; reflexivity.
Qed.

(** ** The intelligence layer and the emergency stop *)

(** Whatever the decision, the update applied when it arrives sets the
    status to Moving, Idle or Recharging: the status it finds is not read. *)
Lemma runIntelligenceLayer_resume_status
    (currentRobot : RobotState) (currentGrid : list (list Cell))
    (decision : DecisionResponse) (random : Q) (prev r : RobotState) :
  App.runIntelligenceLayer_resume currentRobot currentGrid decision random prev = Ok r ->
  status r = RobotStatus.MOVING \/ status r = RobotStatus.IDLE
  \/ status r = RobotStatus.RECHARGING.
Proof.
  unfold App.runIntelligenceLayer_resume.
  destruct (action decision), (targetCoordinates decision);
    repeat match goal with
           | |- context [planPath ?a ?b ?c] => destruct (planPath a b c) as [[|? ?]| |]
           | |- context [if ?b then _ else _] => destruct b
           | |- context [match ?l with [] => _ | _ :: _ => _ end] => destruct l
           | |- context [match ?o with Some _ => _ | None => _ end] => destruct o
           end;
    try discriminate; intros [= <-]; simpl; auto.
Qed.

(** C4, on the code.  The robot is idle, a request goes out, the operator
    stops the robot, and then the decision arrives: the robot leaves the
    emergency stop and gets a path. *)
Theorem emergency_stop_overridden_by_decision :
  exists planning known stopped r,
    App.runIntelligenceLayer_request idleRobot openGrid idleRobot = Some (planning, known) /\
    stopped = App.handleEmergencyStop (stateOf openGrid planning) /\
    status (App.robot stopped) = RobotStatus.EMERGENCY_STOP /\
    path (App.robot stopped) = [] /\
    App.runIntelligenceLayer_resume idleRobot openGrid moveDecision 0 (App.robot stopped)
    = Ok r /\
    status r = RobotStatus.MOVING /\
    path r = [mkCoordinates 1 0; mkCoordinates 2 0].
Proof.
  do 4 eexists.
  split; [reflexivity|]. split; [reflexivity|].
  split; [reflexivity|]. split; [reflexivity|].
  split; [vm_compute; reflexivity|]. split; reflexivity.
Qed.

(** ** The decision orchestrator *)

Section OrchestratorProofs.

Import Gemini.

Variable JSON_parse : string -> string + Value.

Lemma retryLoop_unfold (oracle : nat -> OracleOutcome)
    (attempts : nat) (backoff : Z) (trace : list Event) :
  retryLoop JSON_parse oracle attempts backoff trace =
  if lt_dec attempts maxAttempts then
    match tryBlock JSON_parse (oracle attempts) with
    | inr decision => (Returned decision, trace ++ [OracleCall])
    | inl error =>
        match isRateLimit error with
        | None => (ThrewTypeError, trace ++ [OracleCall])
        | Some rateLimit =>
            if rateLimit && (S attempts <? maxAttempts)%nat then
              retryLoop JSON_parse oracle (S attempts) (backoff * 2)
                        (trace ++ [OracleCall; ConsoleWarn; Delay backoff])
            else (Returned faultFallback, trace ++ [OracleCall; ConsoleError])
        end
    end
  else (Returned timeoutFallback, trace).
Proof.
  rewrite retryLoop_equation_1.
  destruct (lt_dec attempts maxAttempts); simpl; [|reflexivity].
  destruct (tryBlock JSON_parse (oracle attempts)) as [e|v]; simpl; [|reflexivity].
  destruct (isRateLimit e) as [rl|]; simpl; [|reflexivity].
  destruct (rl && (S attempts <? maxAttempts)%nat); reflexivity.
Qed.

(** A throttled attempt that is not the last one waits and tries again. *)
Lemma retryLoop_throttled (oracle : nat -> OracleOutcome)
    (attempts : nat) (backoff : Z) (trace : list Event) (e : Value) :
  (S attempts < maxAttempts)%nat ->
  tryBlock JSON_parse (oracle attempts) = inl e ->
  isRateLimit e = Some true ->
  retryLoop JSON_parse oracle attempts backoff trace
  = retryLoop JSON_parse oracle (S attempts) (backoff * 2)
              (trace ++ [OracleCall; ConsoleWarn; Delay backoff]).
Proof.
  intros Hlt Htry Hrl. rewrite retryLoop_unfold.
  destruct (lt_dec attempts maxAttempts) as [_|Hn]; [|lia].
  rewrite Htry, Hrl.
  destruct (Nat.ltb_spec (S attempts) maxAttempts); [reflexivity|lia].
Qed.

(** A failed attempt that the handler classifies, and that is the last one
    or is not a rate limit, ends the call with the fallback. *)
Lemma retryLoop_gives_up (oracle : nat -> OracleOutcome)
    (attempts : nat) (backoff : Z) (trace : list Event) (e : Value) (rl : bool) :
  (attempts < maxAttempts)%nat ->
  tryBlock JSON_parse (oracle attempts) = inl e ->
  isRateLimit e = Some rl ->
  rl = false \/ S attempts = maxAttempts ->
  retryLoop JSON_parse oracle attempts backoff trace
  = (Returned faultFallback, trace ++ [OracleCall; ConsoleError]).
Proof.
  intros Hlt Htry Hrl Hcase. rewrite retryLoop_unfold.
  destruct (lt_dec attempts maxAttempts) as [_|Hn]; [|lia].
  rewrite Htry, Hrl.
  destruct Hcase as [-> | Hlast]; [reflexivity|].
  destruct (Nat.ltb_spec (S attempts) maxAttempts); [lia|].
  now rewrite andb_false_r.
Qed.

(** A failed attempt on which the handler itself throws ends the call with
    that exception, whichever attempt it is. *)
Lemma retryLoop_handler_throws (oracle : nat -> OracleOutcome)
    (attempts : nat) (backoff : Z) (trace : list Event) (e : Value) :
  (attempts < maxAttempts)%nat ->
  tryBlock JSON_parse (oracle attempts) = inl e ->
  isRateLimit e = None ->
  retryLoop JSON_parse oracle attempts backoff trace
  = (ThrewTypeError, trace ++ [OracleCall]).
Proof.
  intros Hlt Htry Hrl. rewrite retryLoop_unfold.
  destruct (lt_dec attempts maxAttempts) as [_|Hn]; [|lia].
  now rewrite Htry, Hrl.
Qed.

(** The handler throws on exactly the values it cannot classify. *)
Lemma isRateLimit_classifiable (e : Value) :
  isRateLimit e = None <-> ~ classifiable e.
Proof.
  destruct e as [| |b|n|s|items|fields]; simpl;
    try (split; [discriminate|intros H; exfalso; apply H; exact I]);
    try (split; [intros _ H; exact H|reflexivity]).
  unfold isRateLimit, getField.
  destruct (is429 (lookupField "status" fields));
    [split; [discriminate|intros H; exfalso; apply H; now left]|].
  destruct (is429 (lookupField "code" fields));
    [split; [discriminate|intros H; exfalso; apply H; right; now left]|].
  destruct (lookupField "message" fields) as [| |b|n|s|items|fields'];
    simpl.
  - split; [discriminate|intros H; exfalso; apply H; right; now right].
  - split; [discriminate|intros H; exfalso; apply H; right; now right].
  - destruct b; simpl.
    + split; [intros _ [H|[H|H]]; discriminate|reflexivity].
    + split; [discriminate|intros H; exfalso; apply H; right; now right].
  - destruct (Qeq_bool n 0); simpl.
    + split; [discriminate|intros H; exfalso; apply H; right; now right].
    + split; [intros _ [H|[H|H]]; discriminate|reflexivity].
  - assert (Hs : (if truthy s
                  then if includes s "429" then Some true
                       else if includes s "quota" then Some true
                            else Some (includes s "RESOURCE_EXHAUSTED")
                  else Some false) <> None).
    { destruct (truthy s); [|discriminate].
      destruct (includes s "429"); [discriminate|].
      destruct (includes s "quota"); discriminate. }
    split; [intros H; now apply Hs in H|intros H; exfalso; apply H; right; now right].
  - split; [|intros H; exfalso; apply H; right; now right].
    repeat match goal with
           | |- context [if ?c then _ else _] => destruct c
           end; discriminate.
  - split; [intros _ [H|[H|H]]; discriminate|reflexivity].
Qed.

(** Whatever the oracle does: at most three calls, and the waits are the
    first zero, one or two of 2000 ms and 4000 ms. *)
Lemma getDecisionFromGemini_budget (oracle : nat -> OracleOutcome) :
  let trace := snd (getDecisionFromGemini JSON_parse oracle) in
  (oracleCalls trace <= 3)%nat /\
  exists n, (n <= 2)%nat /\ delays trace = take n [2000; 4000].
Proof.
  assert (Hleaf : forall (n : nat) (tr : list Event),
             (oracleCalls tr <= 3)%nat -> (n <= 2)%nat ->
             delays tr = take n [2000; 4000] ->
             (oracleCalls tr <= 3)%nat /\
             exists n, (n <= 2)%nat /\ delays tr = take n [2000; 4000]).
  { intros n tr H1 H2 H3. split; [exact H1|]. exists n. now split. }
  unfold getDecisionFromGemini.
  rewrite retryLoop_unfold. unfold maxAttempts. simpl.
  destruct (tryBlock JSON_parse (oracle 0%nat)) as [e0|d0]; simpl;
    [|apply (Hleaf 0%nat); [unfold oracleCalls; simpl; lia|lia|reflexivity]].
  destruct (isRateLimit e0) as [[|]|]; simpl;
    [|apply (Hleaf 0%nat); [unfold oracleCalls; simpl; lia|lia|reflexivity]..].
  rewrite retryLoop_unfold. unfold maxAttempts. simpl.
  destruct (tryBlock JSON_parse (oracle 1%nat)) as [e1|d1]; simpl;
    [|apply (Hleaf 1%nat); [unfold oracleCalls; simpl; lia|lia|reflexivity]].
  destruct (isRateLimit e1) as [[|]|]; simpl;
    [|apply (Hleaf 1%nat); [unfold oracleCalls; simpl; lia|lia|reflexivity]..].
  rewrite retryLoop_unfold. unfold maxAttempts. simpl.
  destruct (tryBlock JSON_parse (oracle 2%nat)) as [e2|d2]; simpl;
    [|apply (Hleaf 2%nat); [unfold oracleCalls; simpl; lia|lia|reflexivity]].
  destruct (isRateLimit e2) as [rl|]; simpl;
    [|apply (Hleaf 2%nat); [unfold oracleCalls; simpl; lia|lia|reflexivity]].
  rewrite andb_false_r. simpl.
  apply (Hleaf 2%nat); [unfold oracleCalls; simpl; lia|lia|reflexivity].
Qed.

(** With an oracle whose failures the handler can classify, the call
    returns a value. *)
Lemma getDecisionFromGemini_returns (oracle : nat -> OracleOutcome) :
  classifiableOracle JSON_parse oracle ->
  exists v, fst (getDecisionFromGemini JSON_parse oracle) = Returned v.
Proof.
  intros Hcl.
  assert (Hno : forall n e, tryBlock JSON_parse (oracle n) = inl e ->
                            isRateLimit e <> None).
  { intros n e He Hnone. apply isRateLimit_classifiable in Hnone.
    apply Hnone. eapply Hcl. exact He. }
  unfold getDecisionFromGemini.
  rewrite retryLoop_unfold. unfold maxAttempts. simpl.
  destruct (tryBlock JSON_parse (oracle 0%nat)) as [e0|d0] eqn:E0; simpl;
    [|now eexists].
  destruct (isRateLimit e0) as [[|]|] eqn:R0; simpl;
    [|now eexists|now apply Hno in E0].
  rewrite retryLoop_unfold. unfold maxAttempts. simpl.
  destruct (tryBlock JSON_parse (oracle 1%nat)) as [e1|d1] eqn:E1; simpl;
    [|now eexists].
  destruct (isRateLimit e1) as [[|]|] eqn:R1; simpl;
    [|now eexists|now apply Hno in E1].
  rewrite retryLoop_unfold. unfold maxAttempts. simpl.
  destruct (tryBlock JSON_parse (oracle 2%nat)) as [e2|d2] eqn:E2; simpl;
    [|now eexists].
  destruct (isRateLimit e2) as [rl|] eqn:R2; simpl;
    [|now apply Hno in E2].
  rewrite andb_false_r. simpl. now eexists.
Qed.

(** C8, amended.  When the first [k] attempts are throttled and attempt [k]
    fails with a value that the handler classifies as no rate limit, or
    fails as the third attempt with any value the handler can classify,
    the call returns the fallback decision (action Explore, priority Low, a
    reasoning text that names the fault) after [k + 1] oracle calls and the
    waits 2000 ms, 4000 ms in that order.  A missing or empty response text
    is such a failure at any attempt; a text that does not parse is one
    the handler can classify.  The handler throws exactly on the values
    that are not classifiable: [undefined], [null], and an object without
    a 429 whose [message] is truthy but neither a string nor an array; with
    an oracle that never fails with such a value the call returns.  A
    response text that parses is returned as parsed, whatever its shape.
    For every oracle at most three calls are made. *)
Theorem getDecisionFromGemini_fallback (oracle : nat -> OracleOutcome)
    (k : nat) (e : Value) :
  (k < maxAttempts)%nat ->
  throttledUpTo JSON_parse oracle k ->
  tryBlock JSON_parse (oracle k) = inl e ->
  isRateLimit e = Some false \/ (k = 2%nat /\ classifiable e) ->
  let result := getDecisionFromGemini JSON_parse oracle in
  (fst result = Returned faultFallback /\
   getField faultFallback "action" = Some (VString "EXPLORE") /\
   getField faultFallback "priority" = Some (VString "LOW") /\
   (exists text, getField faultFallback "reasoning" = Some (VString text) /\
                 text <> ""%string) /\
   oracleCalls (snd result) = S k /\
   delays (snd result) = take k [2000; 4000]) /\
  (isRateLimit emptyPayload = Some false /\
   tryBlock JSON_parse (Resolves None) = inl emptyPayload /\
   tryBlock JSON_parse (Resolves (Some ""%string)) = inl emptyPayload /\
   forall text msg, truthy text = true -> JSON_parse text = inl msg ->
                    tryBlock JSON_parse (Resolves (Some text)) = inl (errorWith msg) /\
                    classifiable (errorWith msg)) /\
  (forall e' : Value, isRateLimit e' = None <-> ~ classifiable e') /\
  (forall oracle' : nat -> OracleOutcome,
     classifiableOracle JSON_parse oracle' ->
     exists v, fst (getDecisionFromGemini JSON_parse oracle') = Returned v) /\
  (forall (oracle' : nat -> OracleOutcome) (text : string) (v : Value),
     oracle' 0%nat = Resolves (Some text) -> truthy text = true ->
     JSON_parse text = inr v ->
     getDecisionFromGemini JSON_parse oracle' = (Returned v, [OracleCall])) /\
  (forall oracle' : nat -> OracleOutcome,
     let trace := snd (getDecisionFromGemini JSON_parse oracle') in
     (oracleCalls trace <= 3)%nat /\
     exists n, (n <= 2)%nat /\ delays trace = take n [2000; 4000]).
Proof.
  intros Hk Hthr Htry Hcase result.
  assert (Hrl : exists rl, isRateLimit e = Some rl /\ (rl = false \/ k = 2%nat)).
  { destruct Hcase as [H|[Hk2 Hcl]]; [exists false; auto|].
    destruct (isRateLimit e) as [rl|] eqn:E; [exists rl; auto|].
    apply isRateLimit_classifiable in E. contradiction. }
  destruct Hrl as (rl & Hrl & Hlast).
  split; [|split; [|split; [|split; [|split]]]].
  - assert (Hres : result
                   = (Returned faultFallback,
                      concat (map (fun b => [OracleCall; ConsoleWarn; Delay b])
                                  (take k [2000; 4000]))
                      ++ [OracleCall; ConsoleError])).
    { unfold result, getDecisionFromGemini, maxAttempts in *.
      destruct k as [|[|[|k]]]; [| | |lia].
      - rewrite (retryLoop_gives_up oracle 0 _ _ e rl);
          [reflexivity|unfold maxAttempts; lia|assumption..|].
        destruct Hlast as [H|H]; [now left|discriminate].
      - destruct (Hthr 0%nat) as (e0 & He0 & Hr0); [lia|].
        rewrite (retryLoop_throttled oracle 0 _ _ e0); [|unfold maxAttempts; lia|assumption..].
        rewrite (retryLoop_gives_up oracle 1 _ _ e rl);
          [reflexivity|unfold maxAttempts; lia|assumption..|].
        destruct Hlast as [H|H]; [now left|discriminate].
      - destruct (Hthr 0%nat) as (e0 & He0 & Hr0); [lia|].
        destruct (Hthr 1%nat) as (e1 & He1 & Hr1); [lia|].
        rewrite (retryLoop_throttled oracle 0 _ _ e0); [|unfold maxAttempts; lia|assumption..].
        rewrite (retryLoop_throttled oracle 1 _ _ e1); [|unfold maxAttempts; lia|assumption..].
        rewrite (retryLoop_gives_up oracle 2 _ _ e rl);
          [reflexivity|unfold maxAttempts; lia|assumption..|].
        now right. }
    rewrite Hres. simpl.
    split; [reflexivity|]. split; [reflexivity|]. split; [reflexivity|].
    split; [eexists; split; [reflexivity|discriminate]|].
    unfold maxAttempts in Hk.
    destruct k as [|[|[|k]]]; [| | |lia]; split; reflexivity.
  - split; [reflexivity|]. split; [reflexivity|]. split; [reflexivity|].
    intros text msg Ht Hp. simpl. rewrite Ht, Hp.
    split; [reflexivity|]. right. right. exact I.
  - apply isRateLimit_classifiable.
  - apply getDecisionFromGemini_returns.
  - intros oracle' text v Ho Ht Hp.
    unfold getDecisionFromGemini. rewrite retryLoop_unfold.
    destruct (lt_dec 0 maxAttempts) as [_|Hn]; [|unfold maxAttempts in Hn; lia].
    unfold tryBlock. now rewrite Ho, Ht, Hp.
  - apply getDecisionFromGemini_budget.
Qed.

End OrchestratorProofs.

(** C8, as stated, fails.  When the oracle rejects with [undefined], or with
    an object whose [message] is a number, the handler throws while it
    classifies the caught value: the call makes one attempt and ends with a
    [TypeError], not with the fallback.  And a response text that parses,
    but to a value that is no decision ([null] here), is returned as it is:
    the caller receives [null], on which reading [action] throws. *)
Lemma getDecisionFromGemini_propagates :
  Gemini.getDecisionFromGemini parseNull (fun _ => Gemini.Rejects Gemini.VUndefined)
  = (Gemini.ThrewTypeError, [Gemini.OracleCall]) /\
  Gemini.getDecisionFromGemini parseNull
    (fun _ => Gemini.Rejects
                (Gemini.VObject [("message"%string, Gemini.VNumber 503)]))
  = (Gemini.ThrewTypeError, [Gemini.OracleCall]) /\
  Gemini.getDecisionFromGemini parseNull (fun _ => Gemini.Resolves (Some "null"%string))
  = (Gemini.Returned Gemini.VNull, [Gemini.OracleCall]) /\
  Gemini.VNull <> Gemini.faultFallback /\
  Gemini.getField Gemini.VNull "action" = None.
Proof.
  split; [|split; [|split; [|split]]].
  - unfold Gemini.getDecisionFromGemini.
    now rewrite (retryLoop_handler_throws parseNull _ 0 _ _ Gemini.VUndefined)
      by (reflexivity || (unfold Gemini.maxAttempts; lia)).
  - unfold Gemini.getDecisionFromGemini.
    now rewrite (retryLoop_handler_throws parseNull _ 0 _ _
                   (Gemini.VObject [("message"%string, Gemini.VNumber 503)]))
      by (reflexivity || (unfold Gemini.maxAttempts; lia)).
  - unfold Gemini.getDecisionFromGemini.
    rewrite (retryLoop_unfold parseNull). reflexivity.
  - discriminate.
  - reflexivity.
Qed.

(** Three rejections with status 429. *)
Lemma getDecisionFromGemini_fallback_witness :
  let oracle := fun _ : nat => Gemini.Rejects tooManyRequests in
  let result := Gemini.getDecisionFromGemini parseNull oracle in
  fst result = Gemini.Returned Gemini.faultFallback /\
  oracleCalls (snd result) = 3%nat /\ delays (snd result) = [2000; 4000].
Proof.
  intros oracle result.
  assert (Hk : (2 < Gemini.maxAttempts)%nat) by (vm_compute; lia).
  assert (Hthr : throttledUpTo parseNull oracle 2).
  { intros i _. eexists. split; reflexivity. }
  assert (Hcl : classifiable tooManyRequests) by (left; reflexivity).
  destruct (getDecisionFromGemini_fallback parseNull oracle 2 _ Hk Hthr eq_refl
              (or_intror (conj eq_refl Hcl))) as ((Hf & _ & _ & _ & Hc & Hd) & _).
  repeat split; assumption.
Defined.

(** ** Grids held as values *)

Lemma cellAt_Some (g : list (list Cell)) (cx cy : Z) (c : Cell) :
  cellAt g cx cy = Some c <->
  0 <= cx /\ 0 <= cy /\
  exists row, g !! Z.to_nat cy = Some row /\ row !! Z.to_nat cx = Some c.
Proof.
  unfold cellAt. split.
  - destruct (Z.ltb_spec cx 0), (Z.ltb_spec cy 0); simpl; try discriminate.
    destruct (g !! Z.to_nat cy) as [row|] eqn:Hrow; [|discriminate].
    intros Hc. repeat split; [lia..|]. now exists row.
  - intros (Hx & Hy & row & Hrow & Hc).
    destruct (Z.ltb_spec cx 0), (Z.ltb_spec cy 0); simpl; try lia.
    now rewrite Hrow.
Qed.

Lemma cellAt_in_bounds (g : list (list Cell)) (cx cy : Z) (c : Cell) :
  wellFormed g -> cellAt g cx cy = Some c ->
  0 <= cx < GRID_SIZE /\ 0 <= cy < GRID_SIZE.
Proof.
  intros [Hlen Hrows] (Hx & Hy & row & Hrow & Hc)%cellAt_Some.
  pose proof (lookup_lt_Some _ _ _ Hrow) as Hly.
  pose proof (lookup_lt_Some _ _ _ Hc) as Hlx.
  rewrite Forall_lookup in Hrows. rewrite (Hrows _ _ Hrow) in Hlx.
  unfold GRID_SIZE in *. lia.
Qed.

Lemma cellAt_defined (g : list (list Cell)) (cx cy : Z) :
  wellFormed g -> 0 <= cx < GRID_SIZE -> 0 <= cy < GRID_SIZE ->
  exists c, cellAt g cx cy = Some c.
Proof.
  intros [Hlen Hrows] Hx Hy.
  destruct (lookup_lt_is_Some_2 g (Z.to_nat cy)) as [row Hrow].
  { unfold GRID_SIZE in *. lia. }
  rewrite Forall_lookup in Hrows. pose proof (Hrows _ _ Hrow) as Hl.
  destruct (lookup_lt_is_Some_2 row (Z.to_nat cx)) as [c Hc].
  { unfold GRID_SIZE in *. lia. }
  exists c. apply cellAt_Some. repeat split; [lia..|]. now exists row.
Qed.

Lemma cellAt_setType_eq (g : list (list Cell)) (cx cy : Z) (t : CellType.t) :
  0 <= cx -> 0 <= cy ->
  cellAt (App.setType g cx cy t) cx cy = withType t <$> cellAt g cx cy.
Proof.
  intros Hx Hy. unfold cellAt, App.setType.
  destruct (Z.ltb_spec cx 0), (Z.ltb_spec cy 0); simpl; try lia.
  rewrite list_lookup_alter_eq.
  destruct (g !! Z.to_nat cy) as [row|]; simpl; [|reflexivity].
  now rewrite list_lookup_alter_eq.
Qed.

Lemma cellAt_setType_ne (g : list (list Cell)) (rx ry cx cy : Z) (t : CellType.t) :
  0 <= rx -> 0 <= ry -> (cx <> rx \/ cy <> ry) ->
  cellAt (App.setType g rx ry t) cx cy = cellAt g cx cy.
Proof.
  intros Hx Hy Hne. unfold cellAt, App.setType.
  destruct (Z.ltb_spec cx 0), (Z.ltb_spec cy 0); simpl; try reflexivity.
  destruct (decide (cy = ry)) as [->|Hy'].
  - rewrite list_lookup_alter_eq.
    destruct (g !! Z.to_nat ry) as [row|]; simpl; [|reflexivity].
    apply list_lookup_alter_ne. lia.
  - rewrite list_lookup_alter_ne by lia. reflexivity.
Qed.

Lemma wellFormed_setType (g : list (list Cell)) (cx cy : Z) (t : CellType.t) :
  wellFormed g -> wellFormed (App.setType g cx cy t).
Proof.
  intros [Hlen Hrows]. unfold App.setType. split.
  - now rewrite length_alter.
  - apply Forall_alter; [exact Hrows|].
    intros row _ Hrow. now rewrite length_alter.
Qed.

(** ** The procedural map *)

Section GenerationProofs.

Variable rnd : nat -> Q.
Variable scenario : ScenarioConfig.

Lemma genCell_base (cx cy : Z) (i : nat) :
  baseCell cx cy (fst (App.genCell rnd scenario cx cy i)).
Proof.
  unfold App.genCell, baseCell, isHazard.
  destruct ((cx =? 0) && (cy =? 0)); simpl.
  - repeat split. intros [?|?]; discriminate.
  - destruct (App.Qlt_bool (rnd i) (obstacleDensity scenario)); simpl.
    + repeat split. destruct (App.Qlt_bool 0.5 (rnd (S i))); intros [?|?]; discriminate.
    + repeat split. intros [?|?]; discriminate.
Qed.

Lemma genRow_base (cy : Z) (xs : list Z) :
  forall i, Forall2 (fun cx c => baseCell cx cy c) xs
                    (fst (App.genRow rnd scenario cy xs i)).
Proof.
  induction xs as [|cx xs IH]; intros i; simpl; [constructor|].
  pose proof (genCell_base cx cy i) as Hc.
  destruct (App.genCell rnd scenario cx cy i) as [c i1].
  specialize (IH i1).
  destruct (App.genRow rnd scenario cy xs i1) as [row i2].
  simpl in *. now constructor.
Qed.

Lemma genGrid_cons (cy : Z) (ys : list Z) (i : nat) :
  App.genGrid rnd scenario (cy :: ys) i
  = let '(row, i1) := App.genRow rnd scenario cy (seqZ 0 GRID_SIZE) i in
    let '(rows, i2) := App.genGrid rnd scenario ys i1 in
    (row :: rows, i2).
Proof. reflexivity. Qed.

Lemma genGrid_base (ys : list Z) :
  forall i, Forall2 (fun cy row =>
                       Forall2 (fun cx c => baseCell cx cy c) (seqZ 0 GRID_SIZE) row)
                    ys (fst (App.genGrid rnd scenario ys i)).
Proof.
  induction ys as [|cy ys IH]; intros i; [constructor|].
  rewrite genGrid_cons.
  pose proof (genRow_base cy (seqZ 0 GRID_SIZE) i) as Hr.
  destruct (App.genRow rnd scenario cy (seqZ 0 GRID_SIZE) i) as [row i1].
  specialize (IH i1).
  destruct (App.genGrid rnd scenario ys i1) as [rows i2].
  simpl in *. now constructor.
Qed.

Lemma proceduralMap_wellFormed :
  wellFormed (fst (App.proceduralMap rnd scenario)).
Proof.
  pose proof (genGrid_base (seqZ 0 GRID_SIZE) 0) as H.
  unfold App.proceduralMap. split.
  - rewrite <- (Forall2_length _ _ _ H). apply length_seqZ.
  - apply Forall_lookup. intros n row Hrow.
    destruct (Forall2_lookup_r _ _ _ _ _ H Hrow) as (cy & _ & Hcy).
    rewrite <- (Forall2_length _ _ _ Hcy). apply length_seqZ.
Qed.

Lemma proceduralMap_cell (cx cy : Z) (c : Cell) :
  cellAt (fst (App.proceduralMap rnd scenario)) cx cy = Some c -> baseCell cx cy c.
Proof.
  intros (Hx & Hy & row & Hrow & Hc)%cellAt_Some.
  pose proof (genGrid_base (seqZ 0 GRID_SIZE) 0) as H.
  destruct (Forall2_lookup_r _ _ _ _ _ H Hrow) as (cy' & Hcy' & Hr).
  destruct (Forall2_lookup_r _ _ _ _ _ Hr Hc) as (cx' & Hcx' & Hb).
  apply lookup_seqZ in Hcy' as [-> _]. apply lookup_seqZ in Hcx' as [-> _].
  rewrite !Z.add_0_l, !Z2Nat.id in Hb by lia. exact Hb.
Qed.

Lemma random_index (r : Q) :
  (0 <= r /\ r < 1)%Q ->
  0 <= Qfloor (r * inject_Z GRID_SIZE) < GRID_SIZE.
Proof.
  intros [H0 H1]. unfold GRID_SIZE. split.
  - change 0 with (Qfloor 0). apply Qfloor_resp_le.
    change (inject_Z 15) with 15%Q. lra.
  - rewrite Zlt_Qlt. eapply Qle_lt_trans; [apply Qfloor_le|].
    change (inject_Z 15) with 15%Q. lra.
Qed.

Lemma placementInv_setType (g0 g : list (list Cell)) (rx ry : Z) (c : Cell)
    (ty : CellType.t) :
  isHazard ty ->
  placementInv g0 g ->
  cellAt g rx ry = Some c ->
  type c = CellType.EMPTY ->
  rx > 2 \/ ry > 2 ->
  placementInv g0 (App.setType g rx ry ty).
Proof.
  intros Hty [Hwf Hinv] Hc Hempty Hzone.
  pose proof (cellAt_in_bounds _ _ _ _ Hwf Hc) as [Hbx Hby].
  split; [now apply wellFormed_setType|].
  intros cx cy c' Hc'.
  destruct (decide (cx = rx /\ cy = ry)) as [[-> ->]|Hne].
  - rewrite cellAt_setType_eq, Hc in Hc' by lia. injection Hc' as <-.
    destruct (Hinv _ _ _ Hc) as (c0 & Hc0 & Hrev & Hcase).
    exists c0. split; [exact Hc0|]. split; [exact Hrev|]. right.
    split; [|split; [lia|exact Hty]].
    destruct Hcase as [<-|(_ & _ & [H|H])]; [exact Hempty|congruence..].
  - rewrite cellAt_setType_ne in Hc' by lia. now apply Hinv.
Qed.

Lemma placeLoop_S (ty : CellType.t) (count : Z) (remaining : nat) (placed : Z)
    (g : list (list Cell)) (i : nat) :
  App.placeLoop rnd ty count (S remaining) placed g i
  = if placed <? count then
      let rx := Qfloor (rnd i * inject_Z GRID_SIZE) in
      let ry := Qfloor (rnd (S i) * inject_Z GRID_SIZE) in
      match cellAt g rx ry with
      | None => TypeError
      | Some c =>
          if CellType.eqb (type c) CellType.EMPTY && ((rx >? 2) || (ry >? 2)) then
            App.placeLoop rnd ty count remaining (placed + 1)
                          (App.setType g rx ry ty) (S (S i))
          else App.placeLoop rnd ty count remaining placed g (S (S i))
      end
    else Ok (g, i).
Proof. reflexivity. Qed.

Lemma placeLoop_inv (ty : CellType.t) (count : Z) (g0 : list (list Cell)) :
  randomStream rnd -> isHazard ty ->
  forall remaining placed g i,
    placementInv g0 g ->
    exists g' i', App.placeLoop rnd ty count remaining placed g i = Ok (g', i') /\
                  placementInv g0 g'.
Proof.
  intros Hrnd Hty. induction remaining as [|remaining IH]; intros placed g i Hinv.
  - now exists g, i.
  - rewrite placeLoop_S.
    destruct (placed <? count); [|now exists g, i].
    pose proof (random_index _ (Hrnd i)) as Hrx.
    pose proof (random_index _ (Hrnd (S i))) as Hry.
    destruct (cellAt_defined g _ _ (proj1 Hinv) Hrx Hry) as [c Hc].
    cbv zeta. rewrite Hc.
    destruct (CellType.eqb (type c) CellType.EMPTY) eqn:Hempty;
      [|now apply IH].
    apply CellType_eqb_spec in Hempty.
    destruct (orb _ _) eqn:Hzone; [|now apply IH].
    apply IH. eapply placementInv_setType; eauto.
    apply orb_true_iff in Hzone as [H|H]; apply Z.gtb_lt in H; lia.
Qed.

(** A placement loop writes to Empty cells only: every cell that is not
    Empty before it runs is the same cell after it. *)
Lemma placeLoop_frame (ty : CellType.t) (count : Z) :
  forall remaining placed g i g' i',
    App.placeLoop rnd ty count remaining placed g i = Ok (g', i') ->
    forall cx cy c, cellAt g cx cy = Some c -> type c <> CellType.EMPTY ->
                    cellAt g' cx cy = Some c.
Proof.
  induction remaining as [|remaining IH]; intros placed g i g' i' Hrun cx cy c Hc Hne.
  - simpl in Hrun. injection Hrun as <- _. exact Hc.
  - rewrite placeLoop_S in Hrun.
    destruct (placed <? count); [|injection Hrun as <- _; exact Hc].
    cbv zeta in Hrun.
    destruct (cellAt g _ _) as [c0|] eqn:Hc0; [|discriminate].
    destruct (CellType.eqb (type c0) CellType.EMPTY) eqn:Hempty;
      [|now apply (IH _ _ _ _ _ Hrun)].
    apply CellType_eqb_spec in Hempty.
    destruct (orb _ _); [|now apply (IH _ _ _ _ _ Hrun)].
    apply (IH _ _ _ _ _ Hrun); [|exact Hne].
    pose proof Hc0 as (Hx & Hy & _)%cellAt_Some.
    rewrite cellAt_setType_ne; [exact Hc|assumption..|].
    destruct (decide (cx = Qfloor (rnd i * inject_Z GRID_SIZE))) as [->|Hx'];
      [|now left].
    right. intros ->. congruence.
Qed.

End GenerationProofs.

(** C10.  For every stream of random values, [initSimulation] yields a
    well-formed grid in which every Victim or Fire cell lies outside the
    corner [x <= 2, y <= 2] and sits where the procedural map had an Empty
    cell; every other cell is as the procedural map made it.  The cells
    revealed at the start are those with [x < 2] and [y < 2], all of them
    inside that corner.  The fires, placed after the victims, go onto cells
    that are still Empty then: every cell that is not Empty once the
    victims are placed, a victim among them, is in the final grid as it
    was. *)
Theorem initSimulation_placement (rnd : nat -> Q) (scenario : ScenarioConfig) :
  randomStream rnd ->
  exists g,
    App.initSimulation rnd scenario = Ok g /\
    wellFormed g /\
    (forall cx cy c, cellAt g cx cy = Some c ->
      exists c0,
        cellAt (fst (App.proceduralMap rnd scenario)) cx cy = Some c0 /\
        (isHazard (type c) ->
         type c0 = CellType.EMPTY /\ ~ (cx <= 2 /\ cy <= 2)) /\
        (~ isHazard (type c) -> type c = type c0) /\
        (revealed c = true <-> cx < 2 /\ cy < 2) /\
        (revealed c = true -> cx <= 2 /\ cy <= 2)) /\
    (exists g1 i1,
       App.placeRandom rnd CellType.VICTIM (victimCount scenario)
                       (fst (App.proceduralMap rnd scenario))
                       (snd (App.proceduralMap rnd scenario)) = Ok (g1, i1) /\
       forall cx cy c1, cellAt g1 cx cy = Some c1 -> type c1 <> CellType.EMPTY ->
                        cellAt g cx cy = Some c1).
Proof.
  intros Hrnd. unfold App.initSimulation.
  pose proof (proceduralMap_wellFormed rnd scenario) as Hwf0.
  pose proof (proceduralMap_cell rnd scenario) as Hbase.
  destruct (App.proceduralMap rnd scenario) as [g0 i0]. simpl in *.
  assert (Hinv0 : placementInv g0 g0).
  { split; [exact Hwf0|]. intros cx cy c Hc. exists c. auto. }
  unfold App.placeRandom.
  destruct (placeLoop_inv rnd CellType.VICTIM (victimCount scenario) g0 Hrnd
              (or_introl eq_refl) 1000 0 g0 i0 Hinv0) as (g1 & i1 & -> & Hinv1).
  destruct (placeLoop_inv rnd CellType.FIRE (fireCount scenario) g0 Hrnd
              (or_intror eq_refl) 1000 0 g1 i1 Hinv1) as (g2 & i2 & Hfire & [Hwf2 Hinv2]).
  rewrite Hfire.
  exists g2. split; [reflexivity|]. split; [exact Hwf2|].
  split;
    [|exists g1, i1; split; [reflexivity|];
      intros cx cy c1 Hc1 Hne;
      exact (placeLoop_frame rnd CellType.FIRE (fireCount scenario)
               _ _ _ _ _ _ Hfire cx cy c1 Hc1 Hne)].
  intros cx cy c Hc.
  destruct (Hinv2 _ _ _ Hc) as (c0 & Hc0 & Hrev & Hcase).
  destruct (Hbase _ _ _ Hc0) as (_ & _ & Hrev0 & Hnh0).
  exists c0. split; [exact Hc0|].
  assert (Hr : revealed c = true <-> cx < 2 /\ cy < 2).
  { rewrite Hrev, Hrev0, andb_true_iff, !Z.ltb_lt. reflexivity. }
  split; [|split; [|split]].
  - intros Hh. destruct Hcase as [Heq|(He & Hz & _)].
    + rewrite Heq in Hh. contradiction.
    + split; [exact He|lia].
  - intros Hnh. destruct Hcase as [Heq|(_ & _ & Hh)]; [exact Heq|contradiction].
  - exact Hr.
  - intros H. apply Hr in H. lia.
Qed.

Lemma initSimulation_placement_witness :
  let rnd := fun _ : nat => 0.5%Q in
  let scenario := {| scenario_id := "random"; scenario_name := "Procedural Random";
                     scenario_description := "Standard randomized disaster zone generation.";
                     obstacleDensity := 0.2; victimCount := 3; fireCount := 4 |} in
  exists g, App.initSimulation rnd scenario = Ok g /\ wellFormed g.
Proof.
  intros rnd scenario.
  assert (Hrnd : randomStream rnd).
  { intros n. split; vm_compute; [discriminate|reflexivity]. }
  destruct (initSimulation_placement rnd scenario Hrnd) as (g & Hg & Hwf & _).
  exists g. split; assumption.
Defined.

(** ** Perception: the copy of the grid *)

Section PerceptionProofs.

Import Perception.

Lemma alloc_fresh (o : object) (hp : heap) :
  exists l, alloc o hp = Some (l, <[l := o]> hp) /\ hp !! l = None.
Proof.
  exists (fresh (dom hp)). split; [reflexivity|].
  apply not_elem_of_dom. apply is_fresh.
Qed.

Lemma index_Some (a : loc) (i : Z) (hp : heap) (elems : list loc) (l : loc) :
  hp !! a = Some (ObjArray elems) -> 0 <= i -> elems !! Z.to_nat i = Some l ->
  index a i hp = Some (l, hp).
Proof.
  intros Ha Hi Hl. unfold index, bind, readArray. rewrite Ha.
  destruct (Z.ltb_spec i 0); [lia|]. now rewrite Hl.
Qed.

Lemma readCell_Some (l : loc) (hp : heap) (c : Cell) :
  hp !! l = Some (ObjCell c) -> readCell l hp = Some (c, hp).
Proof. intros H. unfold readCell. now rewrite H. Qed.

Lemma readArray_Some (l : loc) (hp : heap) (elems : list loc) :
  hp !! l = Some (ObjArray elems) -> readArray l hp = Some (elems, hp).
Proof. intros H. unfold readArray. now rewrite H. Qed.

(** The store the scan starts from. *)
Variable hp0 : heap.

Lemma cellCopied_mono (upd : bool) (cur cur' : heap) (cl clN : loc) :
  cur ⊆ cur' -> cellCopied hp0 upd cur cl clN -> cellCopied hp0 upd cur' cl clN.
Proof.
  intros Hsub (c & cN & H1 & H2 & H3 & H4).
  exists c, cN. repeat split; try assumption.
  eapply lookup_weaken; eassumption.
Qed.

Lemma rowCopied_mono (upd : bool) (cur cur' : heap) (r rN : loc) :
  cur ⊆ cur' -> rowCopied hp0 upd cur r rN -> rowCopied hp0 upd cur' r rN.
Proof.
  intros Hsub (cells & cellsN & H1 & H2 & H3 & H4).
  exists cells, cellsN. repeat split; try assumption.
  - eapply lookup_weaken; eassumption.
  - eapply Forall2_impl; [exact H4|]. intros ? ? ?. eapply cellCopied_mono; eassumption.
Qed.

Lemma fresh_in_base (cur : heap) (l : loc) :
  hp0 ⊆ cur -> cur !! l = None -> hp0 !! l = None.
Proof.
  intros Hsub Hl. destruct (hp0 !! l) as [o|] eqn:E; [|reflexivity].
  rewrite (lookup_weaken _ _ _ _ E Hsub) in Hl. discriminate.
Qed.

Lemma copyCells_spec (cells : list loc) :
  isCellArray hp0 cells ->
  forall cur, hp0 ⊆ cur ->
    exists cellsN cur',
      copyCells cells cur = Some (cellsN, cur') /\ cur ⊆ cur' /\
      Forall2 (cellCopied hp0 false cur') cells cellsN.
Proof.
  induction cells as [|cl cells IH]; intros Hcells cur Hsub.
  - exists [], cur. repeat split; [reflexivity|constructor].
  - apply Forall_cons in Hcells as [[c Hc] Hcells].
    pose proof (lookup_weaken _ _ _ _ Hc Hsub) as Hc'.
    destruct (alloc_fresh (ObjCell c) cur) as (l' & Hal & Hfresh).
    assert (Hsub1 : cur ⊆ <[l' := ObjCell c]> cur) by now apply insert_subseteq.
    destruct (IH Hcells (<[l' := ObjCell c]> cur)) as (cellsN & cur' & Hcp & Hsub2 & Hall).
    { now transitivity cur. }
    exists (l' :: cellsN), cur'. split; [|split].
    + simpl. unfold bind. rewrite (readCell_Some _ _ _ Hc'), Hal, Hcp. reflexivity.
    + now transitivity (<[l' := ObjCell c]> cur).
    + constructor; [|exact Hall].
      exists c, c. repeat split; [exact Hc| |eapply fresh_in_base; eassumption|now left].
      eapply lookup_weaken; [|exact Hsub2]. apply lookup_insert_eq.
Qed.

Lemma copyRows_spec (rows : list loc) :
  Forall (isRow hp0) rows ->
  forall cur, hp0 ⊆ cur ->
    exists rowsN cur',
      copyRows rows cur = Some (rowsN, cur') /\ cur ⊆ cur' /\
      Forall2 (rowCopied hp0 false cur') rows rowsN.
Proof.
  induction rows as [|r rows IH]; intros Hrows cur Hsub.
  - exists [], cur. repeat split; [reflexivity|constructor].
  - apply Forall_cons in Hrows as [(cells & Hr & _ & Hcells) Hrows].
    pose proof (lookup_weaken _ _ _ _ Hr Hsub) as Hr'.
    destruct (copyCells_spec cells Hcells cur Hsub) as (cellsN & cur1 & Hcp & Hsub1 & Hall).
    destruct (alloc_fresh (ObjArray cellsN) cur1) as (r' & Hal & Hfresh).
    set (cur2 := <[r' := ObjArray cellsN]> cur1) in *.
    assert (Hsub2 : cur1 ⊆ cur2) by now apply insert_subseteq.
    destruct (IH Hrows cur2) as (rowsN & cur' & Hcr & Hsub3 & Hallr).
    { transitivity cur; [exact Hsub|]. now transitivity cur1. }
    exists (r' :: rowsN), cur'. split; [|split].
    + simpl. unfold bind. rewrite (readArray_Some _ _ _ Hr'), Hcp, Hal, Hcr. reflexivity.
    + transitivity cur1; [exact Hsub1|]. now transitivity cur2.
    + constructor; [|exact Hallr].
      exists cells, cellsN. repeat split; [exact Hr| | |].
      * eapply lookup_weaken; [|exact Hsub3]. apply lookup_insert_eq.
      * eapply fresh_in_base; [|exact Hfresh]. now transitivity cur.
      * eapply Forall2_impl; [exact Hall|]. intros ? ? ?.
        eapply cellCopied_mono; [|eassumption]. now transitivity cur2.
Qed.

Lemma copyGrid_spec (grid : loc) (rows : list loc) :
  hp0 !! grid = Some (ObjArray rows) -> Forall (isRow hp0) rows ->
  exists gridN rowsN cur,
    copyGrid grid hp0 = Some (gridN, cur) /\ hp0 ⊆ cur /\
    hp0 !! gridN = None /\
    cur !! gridN = Some (ObjArray rowsN) /\
    Forall2 (rowCopied hp0 false cur) rows rowsN.
Proof.
  intros Hg Hrows.
  destruct (copyRows_spec rows Hrows hp0) as (rowsN & cur1 & Hcr & Hsub1 & Hall);
    [reflexivity|].
  destruct (alloc_fresh (ObjArray rowsN) cur1) as (gN & Hal & Hfresh).
  exists gN, rowsN, (<[gN := ObjArray rowsN]> cur1).
  assert (Hsub2 : cur1 ⊆ <[gN := ObjArray rowsN]> cur1) by now apply insert_subseteq.
  split; [|split; [|split; [|split]]].
  - unfold copyGrid, bind. rewrite (readArray_Some _ _ _ Hg), Hcr, Hal. reflexivity.
  - now transitivity cur1.
  - eapply fresh_in_base; eassumption.
  - apply lookup_insert_eq.
  - eapply Forall2_impl; [exact Hall|]. intros ? ? ?. eapply rowCopied_mono; eassumption.
Qed.

(** ** Perception: the scan of the window *)

Lemma cellOf_Some (hp : heap) (g : loc) (cx cy : Z) (c : Cell) :
  cellOf hp g cx cy = Some c <->
  0 <= cx /\ 0 <= cy /\
  exists rows r cells cl,
    hp !! g = Some (ObjArray rows) /\ rows !! Z.to_nat cy = Some r /\
    hp !! r = Some (ObjArray cells) /\ cells !! Z.to_nat cx = Some cl /\
    hp !! cl = Some (ObjCell c).
Proof.
  unfold cellOf, index, bind, readArray, readCell, ret, throw. split.
  - destruct (hp !! g) as [[|rows]|] eqn:Hg; try discriminate.
    destruct (Z.ltb_spec cy 0); [discriminate|].
    destruct (rows !! Z.to_nat cy) as [r|] eqn:Hr; [|discriminate].
    destruct (hp !! r) as [[|cells]|] eqn:Hcells; try discriminate.
    destruct (Z.ltb_spec cx 0); [discriminate|].
    destruct (cells !! Z.to_nat cx) as [cl|] eqn:Hcl; [|discriminate].
    destruct (hp !! cl) as [[c'|]|] eqn:Hc; try discriminate.
    intros [= ->]. repeat split; [lia..|]. now exists rows, r, cells, cl.
  - intros (Hx & Hy & rows & r & cells & cl & Hg & Hr & Hcells & Hcl & Hc).
    rewrite Hg. destruct (Z.ltb_spec cy 0); [lia|]. rewrite Hr, Hcells.
    destruct (Z.ltb_spec cx 0); [lia|]. now rewrite Hcl, Hc.
Qed.

Lemma isGrid_cellOf (hp : heap) (g : loc) (cx cy : Z) :
  isGrid hp g -> 0 <= cx < GRID_SIZE -> 0 <= cy < GRID_SIZE ->
  exists c, cellOf hp g cx cy = Some c.
Proof.
  intros (rows & Hg & Hlen & Hrows) Hx Hy.
  destruct (lookup_lt_is_Some_2 rows (Z.to_nat cy)) as [r Hr].
  { unfold GRID_SIZE in *. lia. }
  rewrite Forall_lookup in Hrows.
  destruct (Hrows _ _ Hr) as (cells & Hcells & Hlenc & Hall).
  destruct (lookup_lt_is_Some_2 cells (Z.to_nat cx)) as [cl Hcl].
  { unfold GRID_SIZE in *. lia. }
  unfold isCellArray in Hall. rewrite Forall_lookup in Hall.
  destruct (Hall _ _ Hcl) as [c Hc].
  exists c. apply cellOf_Some. repeat split; [lia..|].
  now exists rows, r, cells, cl.
Qed.

Lemma isGrid_cellOf_bounds (hp : heap) (g : loc) (cx cy : Z) (c : Cell) :
  isGrid hp g -> cellOf hp g cx cy = Some c ->
  0 <= cx < GRID_SIZE /\ 0 <= cy < GRID_SIZE.
Proof.
  intros (rows & Hg & Hlen & Hrows)
         (Hx & Hy & rows' & r & cells & cl & Hg' & Hr & Hcells & Hcl & Hc)%cellOf_Some.
  rewrite Hg in Hg'. injection Hg' as <-.
  rewrite Forall_lookup in Hrows.
  destruct (Hrows _ _ Hr) as (cells' & Hcells' & Hlenc & _).
  rewrite Hcells in Hcells'. injection Hcells' as <-.
  apply lookup_lt_Some in Hr, Hcl. unfold GRID_SIZE in *. lia.
Qed.

Lemma isGrid_mono (hp hp' : heap) (g : loc) :
  hp ⊆ hp' -> isGrid hp g -> isGrid hp' g.
Proof.
  intros Hsub (rows & Hg & Hlen & Hrows).
  exists rows. split; [eapply lookup_weaken; eassumption|]. split; [exact Hlen|].
  eapply Forall_impl; [exact Hrows|].
  intros r (cells & Hr & Hl & Hc). exists cells.
  split; [eapply lookup_weaken; eassumption|]. split; [exact Hl|].
  eapply Forall_impl; [exact Hc|]. intros cl [c Hcl]. exists c.
  eapply lookup_weaken; eassumption.
Qed.

Lemma cellOf_mono (hp hp' : heap) (g : loc) (cx cy : Z) :
  hp ⊆ hp' -> isGrid hp g -> cellOf hp' g cx cy = cellOf hp g cx cy.
Proof.
  intros Hsub Hgrid.
  destruct (cellOf hp g cx cy) as [c|] eqn:E.
  - apply cellOf_Some in E as (Hx & Hy & rows & r & cells & cl & H1 & H2 & H3 & H4 & H5).
    apply cellOf_Some. repeat split; [lia..|].
    exists rows, r, cells, cl.
    repeat split; try assumption; eapply lookup_weaken; eassumption.
  - destruct (cellOf hp' g cx cy) as [c|] eqn:E'; [|reflexivity].
    pose proof (isGrid_cellOf_bounds _ _ _ _ _ (isGrid_mono _ _ _ Hsub Hgrid) E') as [Hx Hy].
    destruct (isGrid_cellOf _ _ _ _ Hgrid Hx Hy) as [c' Hc']. congruence.
Qed.

Lemma withRevealed_idem (c : Cell) :
  withRevealed true (withRevealed true c) = withRevealed true c.
Proof. reflexivity. Qed.

Lemma cellCopied_write (upd : bool) (cur : heap) (l : loc) (cW : Cell) (cl clN : loc) :
  cur !! l = Some (ObjCell cW) ->
  cellCopied hp0 upd cur cl clN ->
  cellCopied hp0 true (<[l := ObjCell (withRevealed true cW)]> cur) cl clN.
Proof.
  intros Hl (c & cN & H1 & H2 & H3 & H4).
  destruct (decide (clN = l)) as [->|Hne].
  - rewrite Hl in H2. injection H2 as ->.
    exists c, (withRevealed true cN). repeat split; [exact H1| |exact H3|].
    + apply lookup_insert_eq.
    + right. split; [reflexivity|]. destruct H4 as [->|[_ ->]]; reflexivity.
  - exists c, cN. repeat split; [exact H1| |exact H3|].
    + rewrite lookup_insert_ne by congruence. exact H2.
    + destruct H4 as [->|[_ ->]]; [now left|now right].
Qed.

Lemma rowCopied_write (upd : bool) (cur : heap) (l : loc) (cW : Cell) (r rN : loc) :
  cur !! l = Some (ObjCell cW) ->
  rowCopied hp0 upd cur r rN ->
  rowCopied hp0 true (<[l := ObjCell (withRevealed true cW)]> cur) r rN.
Proof.
  intros Hl (cells & cellsN & H1 & H2 & H3 & H4).
  exists cells, cellsN. repeat split; [exact H1| |exact H3|].
  - rewrite lookup_insert_ne; [exact H2|]. intros ->. congruence.
  - eapply Forall2_impl; [exact H4|]. intros ? ? ?.
    eapply cellCopied_write; eassumption.
Qed.

Lemma cellOf_write_revealed (cur : heap) (l : loc) (cW : Cell) (g : loc)
    (cx cy : Z) (c : Cell) :
  cur !! l = Some (ObjCell cW) ->
  cellOf cur g cx cy = Some c -> revealed c = true ->
  exists c', cellOf (<[l := ObjCell (withRevealed true cW)]> cur) g cx cy = Some c' /\
             revealed c' = true.
Proof.
  intros Hl (Hx & Hy & rows & r & cells & cl & H1 & H2 & H3 & H4 & H5)%cellOf_Some Hrev.
  assert (Hg : g <> l) by (intros ->; congruence).
  assert (Hr : r <> l) by (intros ->; congruence).
  destruct (decide (cl = l)) as [->|Hne].
  - exists (withRevealed true cW). split; [|reflexivity].
    apply cellOf_Some. repeat split; [lia..|].
    exists rows, r, cells, l. rewrite !lookup_insert_ne by congruence.
    repeat split; try assumption. apply lookup_insert_eq.
  - exists c. split; [|exact Hrev].
    apply cellOf_Some. repeat split; [lia..|].
    exists rows, r, cells, cl. rewrite !lookup_insert_ne by congruence.
    repeat split; assumption.
Qed.

Section Scan.

Variables (grid gridN : loc) (rows rowsN : list loc) (robotPos : Coordinates).
Hypothesis Hgrid : hp0 !! grid = Some (ObjArray rows).
Hypothesis Hlen : length rows = Z.to_nat GRID_SIZE.
Hypothesis Hrows : Forall (isRow hp0) rows.

Lemma base_isGrid : isGrid hp0 grid.
Proof. exists rows. auto. Qed.

(** The cell of the copy that stands at an in-bounds position. *)
Lemma copy_lookup (upd : bool) (cur : heap) (cx cy : Z) :
  cur !! gridN = Some (ObjArray rowsN) ->
  Forall2 (rowCopied hp0 upd cur) rows rowsN ->
  0 <= cx < GRID_SIZE -> 0 <= cy < GRID_SIZE ->
  exists c clN cN,
    cellOf hp0 grid cx cy = Some c /\
    cellOf cur gridN cx cy = Some cN /\
    (exists rN cellsN, rowsN !! Z.to_nat cy = Some rN /\
                       cur !! rN = Some (ObjArray cellsN) /\
                       cellsN !! Z.to_nat cx = Some clN) /\
    cur !! clN = Some (ObjCell cN) /\
    hp0 !! clN = None /\
    (cN = c \/ (upd = true /\ cN = withRevealed true c)).
Proof.
  intros HgN Hall Hx Hy.
  destruct (isGrid_cellOf _ _ _ _ base_isGrid Hx Hy) as [c Hc].
  pose proof Hc as (_ & _ & rows' & r & cells & cl & H1 & H2 & H3 & H4 & H5)%cellOf_Some.
  rewrite Hgrid in H1. injection H1 as <-.
  destruct (Forall2_lookup_l _ _ _ _ _ Hall H2)
    as (rN & HrN & cells' & cellsN & Hr & HrN' & _ & Hcells).
  rewrite H3 in Hr. injection Hr as <-.
  destruct (Forall2_lookup_l _ _ _ _ _ Hcells H4)
    as (clN & HclN & c' & cN & Hcl & HcN & Hfresh & Hrel).
  rewrite H5 in Hcl. injection Hcl as <-.
  exists c, clN, cN. split; [exact Hc|]. split; [|split; [|auto]].
  - apply cellOf_Some. repeat split; [lia..|]. now exists rowsN, rN, cellsN, clN.
  - now exists rN, cellsN.
Qed.

Lemma scanInv_weaken (P P' : Z -> Z -> Prop) (st : ScanState) (cur : heap) :
  (forall a b, P' a b -> P a b) ->
  scanInv hp0 grid gridN rows rowsN robotPos P st cur ->
  scanInv hp0 grid gridN rows rowsN robotPos P' st cur.
Proof.
  intros Himp (H1 & H2 & H3 & H4 & H5 & H6).
  repeat split; try assumption.
  - intros Hu dy dx c HP. apply (H4 Hu). now apply Himp.
  - intros dy dx HP. apply H6. now apply Himp.
Qed.

Lemma scanCell_step (P : Z -> Z -> Prop) (st : ScanState) (cur : heap) (dy dx : Z) :
  Z.abs dx <= SENSOR_RADIUS -> Z.abs dy <= SENSOR_RADIUS ->
  scanInv hp0 grid gridN rows rowsN robotPos P st cur ->
  exists st' cur',
    scanCell grid gridN robotPos dy dx st cur = Some (st', cur') /\
    scanInv hp0 grid gridN rows rowsN robotPos
            (fun a b => P a b \/ (a = dy /\ b = dx)) st' cur'.
Proof.
  intros Hdx Hdy (Hsub & HgN & Hall & Hold & Hnew & Hdone).
  unfold scanCell.
  set (nx := x robotPos + dx). set (ny := y robotPos + dy).
  destruct ((nx >=? 0) && (nx <? GRID_SIZE) && (ny >=? 0) && (ny <? GRID_SIZE)) eqn:Hb.
  - apply andb_true_iff in Hb as [Hb Hb4]. apply andb_true_iff in Hb as [Hb Hb3].
    apply andb_true_iff in Hb as [Hb1 Hb2].
    apply Z.geb_le in Hb1, Hb3. apply Z.ltb_lt in Hb2, Hb4.
    destruct (copy_lookup _ _ nx ny HgN Hall) as
      (c & clN & cN & Hc & HcN & (rN & cellsN & HrN & HrN' & HclN) & HcN' & Hfresh & Hrel);
      [lia..|].
    pose proof Hc as (_ & _ & rows' & r & cells & cl & H1 & H2 & H3 & H4 & H5)%cellOf_Some.
    unfold bind.
    rewrite (index_Some grid ny cur rows' r); [|eapply lookup_weaken; eassumption|lia|assumption].
    rewrite (index_Some r nx cur cells cl); [|eapply lookup_weaken; eassumption|lia|assumption].
    rewrite (readCell_Some cl cur c); [|eapply lookup_weaken; eassumption].
    rewrite (index_Some gridN ny cur rowsN rN); [|assumption|lia|assumption].
    rewrite (index_Some rN nx cur cellsN clN); [|assumption|lia|assumption].
    rewrite (readCell_Some clN cur cN); [|assumption].
    destruct (revealed cN) eqn:Hrev; simpl.
    + eexists _, cur. split; [reflexivity|]. simpl.
      split; [exact Hsub|]. split; [exact HgN|]. split; [exact Hall|].
      split; [|split; [exact Hnew|]].
      * intros Hu dy' dx' c' [HP|[-> ->]] Hc'; [now apply (Hold Hu dy' dx')|].
        fold nx ny in Hc'. rewrite Hc in Hc'. injection Hc' as <-.
        simpl in Hu. destruct Hrel as [->|[Hu' _]]; [exact Hrev|congruence].
      * intros dy' dx' [HP|[-> ->]] Hx' Hy'; [now apply Hdone|].
        exists cN. now split.
    + unfold writeRevealed. rewrite HcN'.
      eexists _, _. split; [reflexivity|]. simpl.
      assert (Hcc : cN = c).
      { destruct Hrel as [->|[_ ->]]; [reflexivity|discriminate]. }
      split; [now apply insert_subseteq_r|].
      split; [rewrite lookup_insert_ne; [exact HgN|intros ->; congruence]|].
      split; [|split; [discriminate|split]].
      * eapply Forall2_impl; [exact Hall|]. intros ? ? ?.
        eapply rowCopied_write; eassumption.
      * intros _. exists nx, ny, c. subst cN. split; [|now split].
        unfold inWindow, nx, ny. split; [lia|].
        replace (x robotPos + dx - x robotPos) with dx by lia.
        replace (y robotPos + dy - y robotPos) with dy by lia. now split.
      * intros dy' dx' [HP|[-> ->]] Hx' Hy'.
        -- destruct (Hdone _ _ HP Hx' Hy') as (c1 & Hc1 & Hr1).
           eapply cellOf_write_revealed; eassumption.
        -- exists (withRevealed true cN). split; [|reflexivity].
           apply cellOf_Some. repeat split; [lia..|].
           exists rowsN, rN, cellsN, clN.
           rewrite !lookup_insert_ne by (intros ->; congruence).
           repeat split; try assumption. apply lookup_insert_eq.
  - exists st, cur. split; [reflexivity|].
    split; [exact Hsub|]. split; [exact HgN|]. split; [exact Hall|].
    split; [|split; [exact Hnew|]].
    + intros Hu dy' dx' c' [HP|[-> ->]] Hc'; [now apply (Hold Hu dy' dx')|].
      apply (isGrid_cellOf_bounds _ _ _ _ _ base_isGrid) in Hc'. fold nx ny in Hc'.
      assert ((nx >=? 0) && (nx <? GRID_SIZE) && (ny >=? 0) && (ny <? GRID_SIZE) = true);
        [|congruence].
      rewrite !andb_true_iff, !Z.geb_le, !Z.ltb_lt. lia.
    + intros dy' dx' [HP|[-> ->]] Hx' Hy'; [now apply Hdone|].
      fold nx ny in Hx', Hy'.
      assert ((nx >=? 0) && (nx <? GRID_SIZE) && (ny >=? 0) && (ny <? GRID_SIZE) = true);
        [|congruence].
      rewrite !andb_true_iff, !Z.geb_le, !Z.ltb_lt. lia.
Qed.

End Scan.

(** A [for] loop keeps an invariant indexed by the values already
    visited. *)
Lemma forM_inv {S : Type} (body : Z -> S -> M S)
    (I : list Z -> S -> heap -> Prop) (range : list Z) :
  (forall pre i st hp, i ∈ range -> I pre st hp ->
     exists st' hp', body i st hp = Some (st', hp') /\ I (pre ++ [i]) st' hp') ->
  forall todo pre st hp,
    (forall i, i ∈ todo -> i ∈ range) -> I pre st hp ->
    exists st' hp', forM body todo st hp = Some (st', hp') /\ I (pre ++ todo) st' hp'.
Proof.
  intros Hbody. induction todo as [|i todo IH]; intros pre st hp Hin HI.
  - exists st, hp. rewrite app_nil_r. now split.
  - destruct (Hbody pre i st hp) as (st1 & hp1 & Hb & HI1); [apply Hin; left|exact HI|].
    destruct (IH (pre ++ [i]) st1 hp1) as (st2 & hp2 & Hf & HI2);
      [intros k Hk; apply Hin; now right|exact HI1|].
    exists st2, hp2. split.
    + simpl. unfold bind. now rewrite Hb.
    + now rewrite <- app_assoc in HI2.
Qed.

Lemma sensorRange_abs (d : Z) : d ∈ sensorRange <-> Z.abs d <= SENSOR_RADIUS.
Proof. unfold sensorRange, SENSOR_RADIUS. rewrite elem_of_seqZ. lia. Qed.

Section ScanLoops.

Variables (grid gridN : loc) (rows rowsN : list loc) (robotPos : Coordinates).
Hypothesis Hgrid : hp0 !! grid = Some (ObjArray rows).
Hypothesis Hlen : length rows = Z.to_nat GRID_SIZE.
Hypothesis Hrows : Forall (isRow hp0) rows.

Lemma scanRow_spec (dys : list Z) (dy : Z) (st : ScanState) (cur : heap) :
  dy ∈ sensorRange ->
  scanInv hp0 grid gridN rows rowsN robotPos
          (fun a b => a ∈ dys /\ b ∈ sensorRange) st cur ->
  exists st' cur',
    forM (fun dx st' => scanCell grid gridN robotPos dy dx st') sensorRange st cur
    = Some (st', cur') /\
    scanInv hp0 grid gridN rows rowsN robotPos
            (fun a b => a ∈ dys ++ [dy] /\ b ∈ sensorRange) st' cur'.
Proof.
  intros Hdy Hinv.
  destruct (forM_inv (fun dx st' => scanCell grid gridN robotPos dy dx st')
              (fun dxs =>
                 scanInv hp0 grid gridN rows rowsN robotPos
                         (fun a b => (a ∈ dys /\ b ∈ sensorRange)
                                     \/ (a = dy /\ b ∈ dxs)))
              sensorRange) with (todo := sensorRange) (pre := @nil Z) (st := st) (hp := cur)
    as (st' & cur' & Hrun & Hfin).
  - intros pre dx st1 hp1 Hdx HI.
    destruct (scanCell_step grid gridN rows rowsN robotPos Hgrid Hlen Hrows
                (fun a b => (a ∈ dys /\ b ∈ sensorRange) \/ (a = dy /\ b ∈ pre))
                st1 hp1 dy dx)
      as (st2 & hp2 & Hstep & HI2); [now apply sensorRange_abs..|exact HI|].
    exists st2, hp2. split; [exact Hstep|].
    eapply scanInv_weaken; [|exact HI2].
    intros a b [H|[-> [H| ->%list_elem_of_singleton]%elem_of_app]]; auto.
  - auto.
  - eapply scanInv_weaken; [|exact Hinv].
    intros a b [H|[_ H%elem_of_nil]]; [exact H|contradiction].
  - exists st', cur'. split; [exact Hrun|].
    eapply scanInv_weaken; [|exact Hfin].
    intros a b [[H| ->%list_elem_of_singleton]%elem_of_app Hb]; auto.
Qed.

Lemma scanWindow_spec (st : ScanState) (cur : heap) :
  scanInv hp0 grid gridN rows rowsN robotPos (fun _ _ => False) st cur ->
  exists st' cur',
    forM (fun dy st =>
            forM (fun dx st' => scanCell grid gridN robotPos dy dx st') sensorRange st)
         sensorRange st cur
    = Some (st', cur') /\
    scanInv hp0 grid gridN rows rowsN robotPos
            (fun a b => a ∈ sensorRange /\ b ∈ sensorRange) st' cur'.
Proof.
  intros Hinv.
  destruct (forM_inv
              (fun dy st =>
                 forM (fun dx st' => scanCell grid gridN robotPos dy dx st') sensorRange st)
              (fun dys =>
                 scanInv hp0 grid gridN rows rowsN robotPos
                         (fun a b => a ∈ dys /\ b ∈ sensorRange))
              sensorRange) with (todo := sensorRange) (pre := @nil Z) (st := st) (hp := cur)
    as (st' & cur' & Hrun & Hfin).
  - intros pre dy st1 hp1 Hdy HI. now apply scanRow_spec.
  - auto.
  - eapply scanInv_weaken; [|exact Hinv]. intros a b [H%elem_of_nil _]. exact H.
  - now exists st', cur'.
Qed.

End ScanLoops.

(** What one scan does to a well-formed grid of the store. *)
Lemma scanEnvironment_spec (grid : loc) (robotPos : Coordinates) :
  isGrid hp0 grid ->
  exists res hp',
    scanEnvironment grid robotPos hp0 = Some (res, hp') /\
    hp0 ⊆ hp' /\
    isGrid hp' (newMapState res) /\
    (newMapState res = grid <-> ~ revealsNew hp0 grid robotPos) /\
    (newMapState res <> grid -> hp0 !! newMapState res = None) /\
    (forall cx cy c, cellOf hp0 grid cx cy = Some c ->
       exists c', cellOf hp' (newMapState res) cx cy = Some c' /\
                  (c' = c \/ c' = withRevealed true c) /\
                  (inWindow robotPos cx cy -> revealed c' = true)).
Proof.
  intros Hisgrid. pose proof Hisgrid as (rows & Hgrid & Hlen & Hrows).
  destruct (copyGrid_spec grid rows Hgrid Hrows)
    as (gridN & rowsN & cur & Hcopy & Hsub & Hfresh & HgN & Hall).
  destruct (scanWindow_spec grid gridN rows rowsN robotPos Hgrid Hlen Hrows
              {| readings := []; mapUpdated := false |} cur)
    as (st & hp' & Hrun & (Hsub' & HgN' & Hall' & Hold & Hnew & Hdone)).
  { repeat split; try assumption; try discriminate; intros; contradiction. }
  assert (Hne : gridN <> grid) by (intros ->; congruence).
  assert (Hwin : forall cx cy, inWindow robotPos cx cy ->
                   (cy - y robotPos) ∈ sensorRange /\ (cx - x robotPos) ∈ sensorRange).
  { intros cx cy (_ & Hx & Hy). now rewrite !sensorRange_abs. }
  exists {| scan_readings := readings st;
            newMapState := if mapUpdated st then gridN else grid |}, hp'.
  split; [|split; [exact Hsub'|]].
  { unfold scanEnvironment, bind. rewrite Hcopy, Hrun. reflexivity. }
  simpl. destruct (mapUpdated st) eqn:Hupd.
  - split; [|split; [|split]].
    + exists rowsN. split; [exact HgN'|].
      split; [rewrite <- (Forall2_length _ _ _ Hall'); exact Hlen|].
      apply Forall_lookup. intros n rN HrN.
      destruct (Forall2_lookup_r _ _ _ _ _ Hall' HrN)
        as (r & Hr & cells & cellsN & Hcells & HcellsN & _ & Hcs).
      rewrite Forall_lookup in Hrows.
      destruct (Hrows _ _ Hr) as (cells' & Hcells' & Hlenc & _).
      rewrite Hcells in Hcells'. injection Hcells' as <-.
      exists cellsN. split; [exact HcellsN|].
      split; [rewrite <- (Forall2_length _ _ _ Hcs); exact Hlenc|].
      apply Forall_lookup. intros k clN HclN.
      destruct (Forall2_lookup_r _ _ _ _ _ Hcs HclN) as (cl & _ & c & cN & _ & HcN & _).
      now exists cN.
    + split; [intros ->; contradiction|]. intros Hno. exfalso. apply Hno. now apply Hnew.
    + intros _. exact Hfresh.
    + intros cx cy c Hc.
      pose proof (isGrid_cellOf_bounds _ _ _ _ _ Hisgrid Hc) as [Hx Hy].
      destruct (copy_lookup grid gridN rows rowsN Hgrid Hlen Hrows _ _ cx cy HgN' Hall' Hx Hy)
        as (c1 & clN & cN & Hc1 & HcN & _ & _ & _ & Hrel).
      rewrite Hc in Hc1. injection Hc1 as <-.
      exists cN. split; [exact HcN|]. split.
      * destruct Hrel as [->|[_ ->]]; auto.
      * intros Hw. destruct (Hwin _ _ Hw) as [Hdy Hdx].
        destruct (Hdone (cy - y robotPos) (cx - x robotPos)) as (cN' & HcN' & Hrev);
          [now split|lia..|].
        replace (x robotPos + (cx - x robotPos)) with cx in HcN' by lia.
        replace (y robotPos + (cy - y robotPos)) with cy in HcN' by lia.
        congruence.
  - split; [|split; [|split]].
    + now apply (isGrid_mono hp0).
    + split; [|reflexivity]. intros _ (cx & cy & c & Hw & Hc & Hrev).
      destruct (Hwin _ _ Hw) as [Hdy Hdx].
      specialize (Hold eq_refl (cy - y robotPos) (cx - x robotPos) c (conj Hdy Hdx)).
      replace (x robotPos + (cx - x robotPos)) with cx in Hold by lia.
      replace (y robotPos + (cy - y robotPos)) with cy in Hold by lia.
      rewrite (Hold Hc) in Hrev. discriminate.
    + intros H. contradiction.
    + intros cx cy c Hc. exists c.
      split; [rewrite (cellOf_mono hp0 hp'); assumption|]. split; [now left|].
      intros Hw. destruct (Hwin _ _ Hw) as [Hdy Hdx].
      specialize (Hold eq_refl (cy - y robotPos) (cx - x robotPos) c (conj Hdy Hdx)).
      replace (x robotPos + (cx - x robotPos)) with cx in Hold by lia.
      replace (y robotPos + (cy - y robotPos)) with cy in Hold by lia.
      now apply Hold.
Qed.

End PerceptionProofs.

Lemma isGridb_sound (hp : Perception.heap) (grid : Perception.loc) :
  isGridb hp grid = true -> isGrid hp grid.
Proof.
  unfold isGridb, isGrid.
  destruct (hp !! grid) as [[|rows]|]; try discriminate.
  intros [Hlen Hrows]%andb_true_iff. exists rows. split; [reflexivity|].
  split; [now apply Nat.eqb_eq|].
  apply Forall_forall. intros r Hr%list_elem_of_In.
  rewrite forallb_forall in Hrows. specialize (Hrows r Hr).
  unfold isRow. destruct (hp !! r) as [[|cells]|]; try discriminate.
  apply andb_true_iff in Hrows as [Hl Hcells]. exists cells. split; [reflexivity|].
  split; [now apply Nat.eqb_eq|].
  apply Forall_forall. intros cl Hcl%list_elem_of_In.
  rewrite forallb_forall in Hcells. specialize (Hcells cl Hcl).
  destruct (hp !! cl) as [[c|]|]; try discriminate. now exists c.
Qed.

(** Scanning from one position after another never hides a cell. *)
Lemma scanAll_monotone (positions : list Coordinates) :
  forall (hp : Perception.heap) (grid : Perception.loc),
    isGrid hp grid ->
    exists grid' hp',
      Perception.scanAll grid positions hp = Some (grid', hp') /\
      isGrid hp' grid' /\
      forall cx cy, revealedAt hp grid cx cy -> revealedAt hp' grid' cx cy.
Proof.
  induction positions as [|p positions IH]; intros hp grid Hgrid.
  - exists grid, hp. repeat split; auto.
  - destruct (scanEnvironment_spec hp grid p Hgrid)
      as (res & hp1 & Hscan & _ & Hgrid1 & _ & _ & Hcells).
    destruct (IH hp1 (Perception.newMapState res) Hgrid1) as (grid' & hp' & Hall & Hgrid' & Hmono).
    exists grid', hp'. split; [|split; [exact Hgrid'|]].
    + simpl. unfold Perception.bind. now rewrite Hscan.
    + intros cx cy (c & Hc & Hrev). apply Hmono.
      destruct (Hcells _ _ _ Hc) as (c' & Hc' & Hrel & _).
      exists c'. split; [exact Hc'|]. destruct Hrel as [->| ->]; auto.
Qed.

(** C7.  A scan of a well-formed grid returns a well-formed grid in which
    every cell has the type it had, every cell that was revealed is still
    revealed, and every cell of the sensor window is revealed; over any
    sequence of scans, each applied to the grid the previous one returned,
    the set of revealed cells never shrinks. *)
Theorem scanEnvironment_monotone (hp : Perception.heap) (grid : Perception.loc)
    (robotPos : Coordinates) (positions : list Coordinates) :
  isGrid hp grid ->
  (exists res hp',
     Perception.scanEnvironment grid robotPos hp = Some (res, hp') /\
     isGrid hp' (Perception.newMapState res) /\
     forall cx cy c, Perception.cellOf hp grid cx cy = Some c ->
       exists c', Perception.cellOf hp' (Perception.newMapState res) cx cy = Some c' /\
                  type c' = type c /\
                  (revealed c = true -> revealed c' = true) /\
                  (inWindow robotPos cx cy -> revealed c' = true)) /\
  (exists grid' hp',
     Perception.scanAll grid positions hp = Some (grid', hp') /\
     isGrid hp' grid' /\
     forall cx cy, revealedAt hp grid cx cy -> revealedAt hp' grid' cx cy).
Proof.
  intros Hgrid. split; [|now apply scanAll_monotone].
  destruct (scanEnvironment_spec hp grid robotPos Hgrid)
    as (res & hp' & Hscan & _ & Hgrid' & _ & _ & Hcells).
  exists res, hp'. split; [exact Hscan|]. split; [exact Hgrid'|].
  intros cx cy c Hc. destruct (Hcells _ _ _ Hc) as (c' & Hc' & Hrel & Hw).
  exists c'. split; [exact Hc'|].
  destruct Hrel as [->| ->]; repeat split; auto.
Qed.

Lemma scanEnvironment_monotone_witness :
  exists grid' hp',
    Perception.scanAll (fst startStore)
      [mkCoordinates 0 0; mkCoordinates 1 0; mkCoordinates 2 0] (snd startStore)
    = Some (grid', hp') /\
    isGrid hp' grid' /\
    forall cx cy, revealedAt (snd startStore) (fst startStore) cx cy ->
                  revealedAt hp' grid' cx cy.
Proof.
  assert (Hgrid : isGrid (snd startStore) (fst startStore)).
  { apply isGridb_sound. vm_compute. reflexivity. }
  exact (proj2 (scanEnvironment_monotone (snd startStore) (fst startStore)
                  (mkCoordinates 0 0)
                  [mkCoordinates 0 0; mkCoordinates 1 0; mkCoordinates 2 0] Hgrid)).
Defined.

(** C9.  A scan of a well-formed grid leaves every object of the store it
    was given as it was, so every cell of the input grid keeps its type and
    its [revealed] flag.  It returns the input array itself exactly when no
    cell of the window was unrevealed; otherwise it returns an array that
    did not exist before the call. *)
Theorem scanEnvironment_frame (hp : Perception.heap) (grid : Perception.loc)
    (robotPos : Coordinates) :
  isGrid hp grid ->
  exists res hp',
    Perception.scanEnvironment grid robotPos hp = Some (res, hp') /\
    (forall l o, hp !! l = Some o -> hp' !! l = Some o) /\
    (forall cx cy, Perception.cellOf hp' grid cx cy = Perception.cellOf hp grid cx cy) /\
    (Perception.newMapState res = grid <-> ~ revealsNew hp grid robotPos) /\
    (Perception.newMapState res <> grid ->
     hp !! Perception.newMapState res = None /\
     forall cx cy, inWindow robotPos cx cy ->
                   revealedAt hp' (Perception.newMapState res) cx cy).
Proof.
  intros Hgrid.
  destruct (scanEnvironment_spec hp grid robotPos Hgrid)
    as (res & hp' & Hscan & Hsub & Hgrid' & Hsame & Hfresh & Hcells).
  exists res, hp'. split; [exact Hscan|].
  split; [|split; [|split; [exact Hsame|]]].
  - intros l o Hl. eapply lookup_weaken; eassumption.
  - intros cx cy. now apply cellOf_mono.
  - intros Hne. split; [now apply Hfresh|].
    intros cx cy Hw. pose proof Hw as [[Hx Hy] _].
    destruct (isGrid_cellOf _ _ _ _ Hgrid Hx Hy) as [c Hc].
    destruct (Hcells _ _ _ Hc) as (c' & Hc' & _ & Hrev).
    exists c'. split; [exact Hc'|now apply Hrev].
Qed.

Lemma scanEnvironment_frame_witness :
  exists res hp',
    Perception.scanEnvironment (fst startStore) (mkCoordinates 0 0) (snd startStore)
    = Some (res, hp') /\
    (forall cx cy, Perception.cellOf hp' (fst startStore) cx cy
                   = Perception.cellOf (snd startStore) (fst startStore) cx cy) /\
    Perception.newMapState res <> fst startStore.
Proof.
  assert (Hgrid : isGrid (snd startStore) (fst startStore)).
  { apply isGridb_sound. vm_compute. reflexivity. }
  destruct (scanEnvironment_frame (snd startStore) (fst startStore)
              (mkCoordinates 0 0) Hgrid)
    as (res & hp' & Hscan & _ & Hcells & Hsame & _).
  exists res, hp'. split; [exact Hscan|]. split; [exact Hcells|].
  intros Heq. apply Hsame in Heq. apply Heq.
  exists 2, 2. eexists. split; [|split].
  - vm_compute. intuition discriminate.
  - vm_compute. reflexivity.
  - reflexivity.
Defined.

(** ** The planner *)

Lemma insertByF_perm (n : Node) (l : list Node) : insertByF n l ≡ₚ n :: l.
Proof.
  induction l as [|m l IH]; simpl; [reflexivity|].
  destruct (node_f n <=? node_f m); [reflexivity|].
  rewrite IH. apply Permutation_swap.
Qed.

Lemma sortByF_perm (l : list Node) : sortByF l ≡ₚ l.
Proof.
  induction l as [|n l IH]; simpl; [reflexivity|].
  rewrite insertByF_perm. now rewrite IH.
Qed.

Lemma coordinates_eta (c : Coordinates) : mkCoordinates (x c) (y c) = c.
Proof. now destruct c. Qed.

Lemma keyOf_inj (a b : Coordinates) : keyOf a = keyOf b -> a = b.
Proof. destruct a, b. unfold keyOf, key. simpl. now intros [= -> ->]. Qed.

Lemma walk_snoc (g : list (list Cell)) (p : list Coordinates) :
  forall a e c,
    walk g a p -> last (a :: p) = Some e -> step g e c -> walk g a (p ++ [c]).
Proof.
  induction p as [|b p IH]; intros a e c Hw Hl Hs; simpl in Hw |- *.
  - injection Hl as ->. now split.
  - destruct Hw as [Hab Hw]. split; [exact Hab|].
    apply (IH b e c Hw); [|exact Hs]. now rewrite last_cons_cons in Hl.
Qed.

Lemma walk_reachable (g : list (list Cell)) (p : list Coordinates) :
  forall a e, walk g a p -> last (a :: p) = Some e -> reachable g a e.
Proof.
  induction p as [|b p IH]; intros a e Hw Hl; simpl in Hw |- *.
  - injection Hl as ->. apply rtc_refl.
  - destruct Hw as [Hab Hw]. rewrite last_cons_cons in Hl.
    eapply rtc_l; [exact Hab|]. now apply IH.
Qed.

Lemma adjacentb_sound (a b : Coordinates) : adjacentb a b = true -> adjacent a b.
Proof.
  unfold adjacentb. intros (o & Ho & Hb)%existsb_exists.
  apply andb_true_iff in Hb as [Hx%Z.eqb_eq Hy%Z.eqb_eq].
  exists o. split; [now apply list_elem_of_In|].
  rewrite <- Hx, <- Hy. now rewrite coordinates_eta.
Qed.

Lemma passableb_sound (g : list (list Cell)) (c : Coordinates) :
  passableb g c = true -> passable g c.
Proof.
  unfold passableb, passable, inBounds.
  rewrite !andb_true_iff, !Z.leb_le, !Z.ltb_lt.
  intros [[[[? ?] ?] ?] Hcell].
  split; [lia|].
  destruct (cellAt g (x c) (y c)) as [cell|]; [|discriminate].
  exists cell. split; [reflexivity|]. intros [Hw Hr].
  rewrite Hw, Hr in Hcell. discriminate.
Qed.

Lemma walkb_sound (g : list (list Cell)) (p : list Coordinates) :
  forall a, walkb g a p = true -> walk g a p.
Proof.
  induction p as [|b p IH]; intros a; simpl; [auto|].
  rewrite !andb_true_iff. intros [[Ha Hp] Hw].
  split; [split; [now apply adjacentb_sound|now apply passableb_sound]|now apply IH].
Qed.

Lemma cellKeys_in (cx cy : Z) :
  0 <= cx < GRID_SIZE -> 0 <= cy < GRID_SIZE -> key cx cy ∈ cellKeys.
Proof.
  intros Hx Hy. unfold cellKeys. apply list_elem_of_In, in_concat.
  exists (map (fun cy => key cx cy) (seqZ 0 GRID_SIZE)). split.
  - apply in_map_iff. exists cx. split; [reflexivity|].
    apply list_elem_of_In, elem_of_seqZ. lia.
  - apply in_map_iff. exists cy. split; [reflexivity|].
    apply list_elem_of_In, elem_of_seqZ. lia.
Qed.

Lemma size_list_to_set_le (l : list (Z * Z)) :
  (size (list_to_set l : gset (Z * Z)) <= length l)%nat.
Proof.
  induction l as [|a l IH].
  - rewrite list_to_set_nil, size_empty. simpl. lia.
  - rewrite list_to_set_cons, size_union_alt, size_singleton.
    assert (Hsub : list_to_set l ∖ {[a]} ⊆ (list_to_set l : gset (Z * Z))).
    { intros k Hk. apply elem_of_difference in Hk. tauto. }
    apply subseteq_size in Hsub. simpl. lia.
Qed.

Section PlannerProofs.

Variable g : list (list Cell).
Variables start target : Coordinates.
Hypothesis Hwf : wellFormed g.

Lemma nodeWalk_child (cur : Node) (cx cy gc hc fc : Z) :
  nodeWalk g start cur ->
  step g (coord cur) (mkCoordinates cx cy) ->
  mkCoordinates cx cy <> start ->
  nodeWalk g start {| node_x := cx; node_y := cy; node_g := gc; node_h := hc;
                      node_f := fc; node_parent := Some cur |}.
Proof.
  intros (p & Hrev & Hlast & Hw & Hs) Hstep Hne.
  exists (p ++ [mkCoordinates cx cy]). split; [|split; [|split]].
  - simpl. now rewrite Hrev.
  - rewrite app_comm_cons. apply last_snoc.
  - eapply walk_snoc; eassumption.
  - intros [H|H%list_elem_of_singleton]%elem_of_app; [contradiction|]. now apply Hne.
Qed.

Lemma find_coord_some (openList : list Node) (cx cy : Z) (e : Node) :
  find (fun n => (node_x n =? cx) && (node_y n =? cy)) openList = Some e ->
  mkCoordinates cx cy ∈ map coord openList.
Proof.
  intros [Hin Hb]%find_some.
  apply andb_true_iff in Hb as [<-%Z.eqb_eq <-%Z.eqb_eq].
  apply list_elem_of_In, in_map_iff. now exists e.
Qed.

Lemma find_coord_none (openList : list Node) (cx cy : Z) :
  find (fun n => (node_x n =? cx) && (node_y n =? cy)) openList = None ->
  mkCoordinates cx cy ∉ map coord openList.
Proof.
  intros Hnone (n & Hn & Hin)%list_elem_of_In%in_map_iff.
  pose proof (find_none _ _ Hnone n Hin) as Hb. simpl in Hb.
  unfold coord in Hn. injection Hn as <- <-.
  now rewrite !Z.eqb_refl in Hb.
Qed.

Lemma visitNeighbor_spec (cur : Node) (closedList : gset (Z * Z))
    (openList : list Node) (offset : Coordinates) :
  offset ∈ neighbors ->
  midInv g start cur closedList openList ->
  exists openList',
    visitNeighbor target g closedList cur openList offset = Some openList' /\
    midInv g start cur closedList openList' /\
    (forall n, n ∈ openList -> n ∈ openList') /\
    (passable g (mkCoordinates (node_x cur + x offset) (node_y cur + y offset)) ->
     key (node_x cur + x offset) (node_y cur + y offset) ∈ closedList \/
     mkCoordinates (node_x cur + x offset) (node_y cur + y offset) ∈ map coord openList').
Proof.
  intros Hoff Hmid. pose proof Hmid as (Hcur & Hstart & Hwalk & Hnd & Hfresh & Huniv).
  unfold visitNeighbor.
  set (nx := node_x cur + x offset). set (ny := node_y cur + y offset).
  destruct ((nx <? 0) || (nx >=? GRID_SIZE) || (ny <? 0) || (ny >=? GRID_SIZE)) eqn:Hout.
  { exists openList. repeat split; auto.
    intros [[Hx Hy] _]. simpl in Hx, Hy.
    rewrite !orb_true_iff, !Z.ltb_lt, !Z.geb_le in Hout. unfold GRID_SIZE in *.
    exfalso. lia. }
  rewrite !orb_false_iff, !Z.ltb_ge, Z.geb_leb, Z.geb_leb, !Z.leb_gt in Hout.
  destruct Hout as [[[Hx0 Hx1] Hy0] Hy1].
  destruct (bool_decide (key nx ny ∈ closedList)) eqn:Hclosed.
  { apply bool_decide_eq_true in Hclosed. exists openList. repeat split; auto. }
  apply bool_decide_eq_false in Hclosed.
  destruct (cellAt_defined g nx ny Hwf) as [cell Hcell]; [lia..|].
  rewrite Hcell.
  destruct (CellType.eqb (type cell) CellType.WALL && revealed cell) eqn:Hblocked.
  { exists openList. repeat split; auto.
    intros [_ (cell' & Hcell' & Hnb)]. simpl in Hcell'.
    rewrite Hcell in Hcell'. injection Hcell' as <-.
    exfalso. apply Hnb. apply andb_true_iff in Hblocked as [Hw Hr].
    split; [now apply CellType_eqb_spec|exact Hr]. }
  assert (Hpass : passable g (mkCoordinates nx ny)).
  { split; [split; simpl; lia|]. exists cell. split; [exact Hcell|].
    intros [Hw Hr]. rewrite Hw, Hr in Hblocked. discriminate. }
  destruct (find _ openList) as [e|] eqn:Hfind.
  - assert (Hin : mkCoordinates nx ny ∈ map coord openList)
      by (eapply find_coord_some; eassumption).
    destruct (_ >=? node_g e); exists openList; repeat split; auto.
  - apply find_coord_none in Hfind.
    eexists. split; [reflexivity|]. split; [|split].
    + assert (Hne : mkCoordinates nx ny <> start).
      { intros <-. apply Hclosed. exact Hstart. }
      split; [exact Hcur|]. split; [exact Hstart|]. split; [|split; [|split]].
      * intros n [Hn| ->%list_elem_of_singleton]%elem_of_app; [now apply Hwalk|].
        apply nodeWalk_child; [exact Hcur| |exact Hne].
        split; [|exact Hpass]. exists offset. split; [exact Hoff|reflexivity].
      * rewrite map_app. apply NoDup_app. split; [exact Hnd|]. split.
        -- intros c Hc ->%list_elem_of_singleton. now apply Hfind.
        -- apply NoDup_singleton.
      * intros n [Hn| ->%list_elem_of_singleton]%elem_of_app; [now apply Hfresh|].
        exact Hclosed.
      * intros n [Hn| ->%list_elem_of_singleton]%elem_of_app; [now apply Huniv|].
        apply elem_of_union_r, elem_of_list_to_set.
        apply cellKeys_in; simpl; unfold GRID_SIZE in *; lia.
    + intros n Hn. apply elem_of_app. now left.
    + intros _. right. rewrite map_app. apply elem_of_app. right.
      now apply list_elem_of_singleton.
Qed.

Lemma visitNeighbors_spec (cur : Node) (closedList : gset (Z * Z))
    (offsets : list Coordinates) :
  (forall o, o ∈ offsets -> o ∈ neighbors) ->
  forall openList,
    midInv g start cur closedList openList ->
    exists openList',
      visitNeighbors target g closedList cur openList offsets = Some openList' /\
      midInv g start cur closedList openList' /\
      (forall n, n ∈ openList -> n ∈ openList') /\
      (forall o, o ∈ offsets ->
         passable g (mkCoordinates (node_x cur + x o) (node_y cur + y o)) ->
         key (node_x cur + x o) (node_y cur + y o) ∈ closedList \/
         mkCoordinates (node_x cur + x o) (node_y cur + y o) ∈ map coord openList').
Proof.
  induction offsets as [|o offsets IH]; intros Hoffs openList Hmid.
  - exists openList. split; [reflexivity|]. split; [exact Hmid|]. split; [auto|].
    intros o H%elem_of_nil. contradiction.
  - destruct (visitNeighbor_spec cur closedList openList o) as (open1 & Hv & Hmid1 & Hsub1 & Hcov1);
      [apply Hoffs; left|exact Hmid|].
    assert (Hoffs' : forall o', o' ∈ offsets -> o' ∈ neighbors).
    { intros o' Ho'. apply Hoffs. now right. }
    destruct (IH Hoffs' open1 Hmid1) as (open2 & Hvs & Hmid2 & Hsub2 & Hcov2).
    exists open2. split; [simpl; now rewrite Hv|]. split; [exact Hmid2|]. split; [auto|].
    intros o' [->|Ho']%elem_of_cons Hp; [|now apply Hcov2].
    destruct (Hcov1 Hp) as [H|H]; [now left|]. right.
    apply list_elem_of_In, in_map_iff in H as (n & Hn & Hin).
    apply list_elem_of_In, in_map_iff. exists n. split; [exact Hn|].
    apply list_elem_of_In, Hsub2, list_elem_of_In, Hin.
Qed.

Lemma goal_test (n : Node) :
  (node_x n =? x target) && (node_y n =? y target) = true <-> coord n = target.
Proof.
  rewrite andb_true_iff, !Z.eqb_eq. unfold coord. destruct target as [tx ty]. simpl.
  split; [intros [-> ->]; reflexivity|intros [= -> ->]; auto].
Qed.

(** One pass of the loop that does not end it. *)
Lemma planLoop_pass (openList openList' : list Node) (closedList : gset (Z * Z))
    (cur : Node) :
  planInv g start target openList closedList ->
  sortByF openList = cur :: openList' ->
  coord cur <> target ->
  let closedList' := {[ key (node_x cur) (node_y cur) ]} ∪ closedList in
  exists openList'',
    visitNeighbors target g closedList' cur openList' neighbors = Some openList'' /\
    planInv g start target openList'' closedList' /\
    (size (universe start ∖ closedList') < size (universe start ∖ closedList))%nat.
Proof.
  intros (Hwalk & Hnd & Hfresh & Huniv & Hcl & Hst & Htg & Hfr) Hsort Hgoal closedList'.
  assert (Hperm : openList ≡ₚ cur :: openList').
  { rewrite <- Hsort. symmetry. apply sortByF_perm. }
  assert (Hcur : cur ∈ openList) by (rewrite Hperm; left).
  assert (Hrest : forall n, n ∈ openList' -> n ∈ openList).
  { intros n Hn. rewrite Hperm. now right. }
  assert (Hnd' : NoDup (coord cur :: map coord openList')).
  { change (NoDup (map coord (cur :: openList'))). now rewrite <- Hperm. }
  apply NoDup_cons in Hnd' as [Hcurnot Hnd'].
  assert (Hkey : key (node_x cur) (node_y cur) = keyOf (coord cur)) by reflexivity.
  assert (Hstart' : keyOf start ∈ closedList').
  { destruct Hst as [H| ->]; [now apply elem_of_union_r|].
    simpl in Hsort. injection Hsort as <- _.
    apply elem_of_union_l, elem_of_singleton. reflexivity. }
  assert (Hmid : midInv g start cur closedList' openList').
  { split; [now apply Hwalk|]. split; [exact Hstart'|].
    split; [auto|]. split; [exact Hnd'|]. split; [|auto].
    intros n Hn [H%elem_of_singleton|H]%elem_of_union; [|now apply (Hfresh n); auto].
    apply Hcurnot. rewrite Hkey in H. apply keyOf_inj in H. rewrite <- H.
    apply list_elem_of_In, in_map, list_elem_of_In, Hn. }
  destruct (visitNeighbors_spec cur closedList' neighbors (fun o Ho => Ho) openList' Hmid)
    as (open2 & Hvs & (_ & _ & Hwalk2 & Hnd2 & Hfresh2 & Huniv2) & Hsub2 & Hcov).
  exists open2. split; [exact Hvs|]. split.
  - split; [exact Hwalk2|]. split; [exact Hnd2|]. split; [exact Hfresh2|].
    split; [exact Huniv2|]. split; [|split; [now left|split]].
    + intros k [->%elem_of_singleton|Hk]%elem_of_union; [|now apply Hcl].
      rewrite Hkey. now apply Huniv.
    + intros [H%elem_of_singleton|H]%elem_of_union; [|contradiction].
      rewrite Hkey in H. apply keyOf_inj in H. now apply Hgoal.
    + intros a b [Ha%elem_of_singleton|Ha]%elem_of_union Hstep.
      * rewrite Hkey in Ha. apply keyOf_inj in Ha. subst a.
        destruct Hstep as [(o & Ho & ->) Hp]. simpl in Hp |- *.
        destruct (Hcov o Ho Hp) as [H|H]; [now left|now right].
      * destruct (Hfr a b Ha Hstep) as [H|H]; [left; now apply elem_of_union_r|].
        apply list_elem_of_In, in_map_iff in H as (n & Hn & Hin).
        apply list_elem_of_In in Hin. rewrite Hperm in Hin.
        apply elem_of_cons in Hin as [->|Hin].
        -- left. apply elem_of_union_l, elem_of_singleton. now rewrite <- Hn.
        -- right. apply list_elem_of_In, in_map_iff. exists n. split; [exact Hn|].
           apply list_elem_of_In, Hsub2, Hin.
  - apply subset_size. split.
    + intros k [Hk Hnk]%elem_of_difference. apply elem_of_difference.
      split; [exact Hk|]. intros H. apply Hnk. now apply elem_of_union_r.
    + intros Hsub. specialize (Hsub (keyOf (coord cur))).
      assert (Hin : keyOf (coord cur) ∈ universe start ∖ closedList).
      { apply elem_of_difference. split; [now apply Huniv|now apply Hfresh]. }
      apply Hsub in Hin. apply elem_of_difference in Hin as [_ Hin].
      apply Hin. apply elem_of_union_l, elem_of_singleton. reflexivity.
Qed.

Lemma planLoop_S (fuel : nat) (openList : list Node) (closedList : gset (Z * Z)) :
  planLoop (S fuel) target g openList closedList
  = match sortByF openList with
    | [] => Ok []
    | currentNode :: openList' =>
        if (node_x currentNode =? x target) && (node_y currentNode =? y target)
        then Ok (tail (rev (chain currentNode)))
        else
          let closedList' :=
            {[ key (node_x currentNode) (node_y currentNode) ]} ∪ closedList in
          match visitNeighbors target g closedList' currentNode openList' neighbors with
          | Some openList'' => planLoop fuel target g openList'' closedList'
          | None => TypeError
          end
    end.
Proof. reflexivity. Qed.

(** When the open list runs empty, the closed positions are closed under
    moves, and the target is not among them. *)
Lemma planInv_exhausted (closedList : gset (Z * Z)) :
  planInv g start target [] closedList -> ~ reachable g start target.
Proof.
  intros (_ & _ & _ & _ & _ & Hst & Htg & Hfr) Hreach.
  destruct Hst as [Hst|Hst]; [|discriminate].
  apply Htg. clear Htg. induction Hreach as [a|a b c Hab Hbc IH]; [exact Hst|].
  apply IH. destruct (Hfr a b Hst Hab) as [H|H]; [exact H|].
  apply elem_of_nil in H. contradiction.
Qed.

(** When the target is taken from the open list, its parent chain is the
    path. *)
Lemma planPost_found (cur : Node) :
  nodeWalk g start cur -> coord cur = target ->
  planPost g start target (tail (rev (chain cur))).
Proof.
  intros (p & Hrev & Hlast & Hw & Hs) Hcur. rewrite Hrev. simpl.
  rewrite Hcur in Hlast.
  destruct p as [|b p].
  - injection Hlast as Hst. split; [split; [now left|reflexivity]|]. congruence.
  - rewrite last_cons_cons in Hlast. split.
    + split; [discriminate|]. intros [Hst|Hnr]; exfalso.
      * apply Hs. rewrite Hst. eapply last_Some_elem_of. exact Hlast.
      * apply Hnr. eapply walk_reachable; [exact Hw|]. now rewrite last_cons_cons.
    + intros _. auto.
Qed.

Lemma planLoop_correct (fuel : nat) :
  forall openList closedList,
    planInv g start target openList closedList ->
    (size (universe start ∖ closedList) < fuel)%nat ->
    exists p, planLoop fuel target g openList closedList = Ok p /\
              planPost g start target p.
Proof.
  induction fuel as [|fuel IH]; intros openList closedList Hinv Hfuel; [lia|].
  rewrite planLoop_S.
  destruct (sortByF openList) as [|cur openList'] eqn:Hsort.
  - exists []. split; [reflexivity|].
    assert (Hnil : openList = []).
    { apply Permutation_nil_r. rewrite <- Hsort. symmetry. apply sortByF_perm. }
    subst openList. apply planInv_exhausted in Hinv.
    split; [split; [now right|reflexivity]|]. congruence.
  - destruct ((node_x cur =? x target) && (node_y cur =? y target)) eqn:Hgoal.
    + apply goal_test in Hgoal. eexists. split; [reflexivity|].
      apply planPost_found; [|exact Hgoal].
      destruct Hinv as (Hwalk & _). apply Hwalk.
      rewrite <- (sortByF_perm openList), Hsort. left.
    + assert (Hne : coord cur <> target).
      { intros H. apply goal_test in H. congruence. }
      destruct (planLoop_pass openList openList' closedList cur Hinv Hsort Hne)
        as (open2 & Hvs & Hinv2 & Hsize).
      cbv zeta. rewrite Hvs. apply IH; [exact Hinv2|lia].
Qed.

Lemma planInv_initial : planInv g start target [startNodeOf start] ∅.
Proof.
  split; [|split; [|split; [|split; [|split; [|split; [|split]]]]]].
  - intros n ->%list_elem_of_singleton. exists [].
    split; [simpl; now rewrite coordinates_eta|].
    split; [unfold coord; simpl; now rewrite coordinates_eta|].
    split; [exact I|apply not_elem_of_nil].
  - simpl. apply NoDup_singleton.
  - intros n _. apply not_elem_of_empty.
  - intros n ->%list_elem_of_singleton. apply elem_of_union_l, elem_of_singleton.
    reflexivity.
  - intros k Hk. now apply not_elem_of_empty in Hk.
  - now right.
  - apply not_elem_of_empty.
  - intros a b Ha. now apply not_elem_of_empty in Ha.
Qed.

Lemma universe_size : (size (universe start ∖ ∅) < planFuel)%nat.
Proof.
  assert (H : (size (universe start) <= S (length cellKeys))%nat).
  { unfold universe. rewrite <- list_to_set_cons. apply size_list_to_set_le. }
  assert (Hsub : universe start ∖ ∅ ⊆ universe start).
  { intros k Hk. apply elem_of_difference in Hk. tauto. }
  apply subseteq_size in Hsub.
  change (length cellKeys) with 225%nat in H.
  change planFuel with 227%nat. lia.
Qed.

End PlannerProofs.

(** C1, as stated, fails twice.  For a target equal to the start the
    planner returns the empty sequence although the target is reachable.
    And on the grid with debris at (0,1) and (0,2) the path returned to
    (0,3) costs 7, while the walk through column 1 costs 5. *)
Lemma planPath_not_minimal :
  (reachable openGrid (mkCoordinates 0 0) (mkCoordinates 0 0) /\
   planPath (mkCoordinates 0 0) (mkCoordinates 0 0) openGrid = Ok []) /\
  (exists p q,
     planPath (mkCoordinates 0 0) (mkCoordinates 0 3) debrisGrid = Ok p /\
     walk debrisGrid (mkCoordinates 0 0) q /\
     last q = Some (mkCoordinates 0 3) /\
     (mkCoordinates 0 0 ∉ q) /\
     pathCost debrisGrid p = 7 /\ pathCost debrisGrid q = 5).
Proof.
  split.
  - split; [apply rtc_refl|vm_compute; reflexivity].
  - exists [mkCoordinates 0 1; mkCoordinates 0 2; mkCoordinates 0 3],
           [mkCoordinates 1 0; mkCoordinates 1 1; mkCoordinates 1 2;
            mkCoordinates 1 3; mkCoordinates 0 3].
    split; [vm_compute; reflexivity|].
    split; [apply walkb_sound; vm_compute; reflexivity|].
    split; [reflexivity|].
    split; [|split; vm_compute; reflexivity].
    intros H. repeat (apply elem_of_cons in H as [H|H]; [discriminate|]).
    now apply elem_of_nil in H.
Qed.

(** C1, amended.  On a well-formed belief grid the planner returns a
    sequence of coordinates.  The sequence is empty exactly when the target
    is the start or no 4-connected path from the start to the target avoids
    the revealed walls.  Otherwise it ends at the target, does not contain
    the start, and each of its cells is next to the one before it (the
    first to the start), on the grid, and not a revealed wall. *)
Theorem planPath_finds_path (g : list (list Cell)) (start target : Coordinates) :
  wellFormed g ->
  exists p,
    planPath start target g = Ok p /\
    (p = [] <-> start = target \/ ~ reachable g start target) /\
    (p <> [] -> last p = Some target /\ (start ∉ p) /\ walk g start p).
Proof.
  intros Hwf.
  destruct (planLoop_correct g start target Hwf planFuel [startNodeOf start] ∅)
    as (p & Hp & Hpost).
  - apply planInv_initial.
  - apply universe_size.
  - exists p. split; [exact Hp|exact Hpost].
Qed.

Lemma planPath_finds_path_witness :
  exists p,
    planPath (mkCoordinates 0 0) (mkCoordinates 0 3) debrisGrid = Ok p /\
    (p <> [] -> last p = Some (mkCoordinates 0 3) /\
                (mkCoordinates 0 0 ∉ p) /\
                walk debrisGrid (mkCoordinates 0 0) p).
Proof.
  assert (Hwf : wellFormed debrisGrid).
  { split; [reflexivity|]. vm_compute. repeat constructor. }
  destruct (planPath_finds_path debrisGrid (mkCoordinates 0 0) (mkCoordinates 0 3) Hwf)
    as (p & Hp & _ & Hpath).
  exists p. split; [exact Hp|exact Hpath].
Defined.

